(** * changesets: changeset parsing, version calculation and changelog text

    A shallow embedding of the pure core of the [changesets] command line
    tool: the changeset parser ([parseChangeset] of changeset.go and [Parse]
    of internal/changeset/changeset.go), [highestBump], the version
    calculation of [calculateNextVersion], the changelog section builder
    [buildChangelogSection] and the changelog merge of [prependChangelog]. *)

From Stdlib Require Import ZArith NArith List Lia Bool Permutation.
From stdpp Require Import gmap list strings.

Open Scope Z_scope.

(** ** Go strings

    A Go string is modelled as the sequence of its characters (code points,
    [N]).  The delimiters, separators and cut sets of the program are all
    ASCII, so slicing by byte offsets after an ASCII match and slicing by
    character offsets agree. *)

Definition rune := N.
Definition gostring := list rune.

(** [lit] turns a literal into a Go string; [LF] is the line feed ['\n']. *)
Definition lit (s : string) : gostring :=
  map (fun a => N.of_nat (Ascii.nat_of_ascii a)) (String.list_ascii_of_string s).

Definition LF : rune := 10%N.

(** [len(s)] *)
Definition len (s : gostring) : Z := Z.of_nat (length s).

(** [len(l)] of a slice. *)
Definition len_list {A} (l : list A) : Z := Z.of_nat (length l).

(** [s[:i]] and [s[i:]] for an index [0 <= i <= len(s)]. *)
Definition slice_to (s : gostring) (i : Z) : gostring := take (Z.to_nat i) s.
Definition slice_from (s : gostring) (i : Z) : gostring := drop (Z.to_nat i) s.

(** Equality test on Go strings ([==]). *)
Definition streq (a b : gostring) : bool := bool_decide (a = b).

Module strings.

(** [strings.HasPrefix] *)
Fixpoint HasPrefix (s prefix : gostring) {struct prefix} : bool :=
  match prefix, s with
  | [], _ => true
  | _ :: _, [] => false
  | p :: prefix', c :: s' => (c =? p)%N && HasPrefix s' prefix'
  end.

(** Position of the first occurrence of [substr] in [s], if any. *)
Fixpoint index_nat (s substr : gostring) : option nat :=
  if HasPrefix s substr then Some 0%nat
  else match s with
       | [] => None
       | _ :: s' => option_map S (index_nat s' substr)
       end.

(** [strings.Index]: the index of the first instance of [substr] in [s],
    or -1 if [substr] is not present. *)
Definition Index (s substr : gostring) : Z :=
  match index_nat s substr with
  | Some n => Z.of_nat n
  | None => -1
  end.

(** [unicode.IsSpace]: the Latin-1 spaces '\t', '\n', '\v', '\f', '\r',
    ' ', U+0085, U+00A0 and the other characters of the Unicode White_Space
    property. *)
Definition IsSpace (r : rune) : bool :=
  ((9 <=? r) && (r <=? 13) || (r =? 32) || (r =? 133) || (r =? 160)
   || (r =? 5760) || (8192 <=? r) && (r <=? 8202) || (r =? 8232)
   || (r =? 8233) || (r =? 8239) || (r =? 8287) || (r =? 12288))%N.

(** [strings.TrimLeftFunc] *)
Fixpoint TrimLeftFunc (s : gostring) (f : rune -> bool) : gostring :=
  match s with
  | [] => []
  | c :: s' => if f c then TrimLeftFunc s' f else s
  end.

(** [strings.TrimRightFunc] *)
Definition TrimRightFunc (s : gostring) (f : rune -> bool) : gostring :=
  rev (TrimLeftFunc (rev s) f).

(** [strings.TrimSpace]: all leading and trailing white space removed. *)
Definition TrimSpace (s : gostring) : gostring :=
  TrimRightFunc (TrimLeftFunc s IsSpace) IsSpace.

(** Membership of a character in a cut set. *)
Definition in_cutset (cutset : gostring) (r : rune) : bool :=
  existsb (fun c => (c =? r)%N) cutset.

(** [strings.TrimLeft]: all leading characters contained in [cutset]
    removed. *)
Definition TrimLeft (s cutset : gostring) : gostring :=
  TrimLeftFunc s (in_cutset cutset).

(** [strings.TrimPrefix] *)
Definition TrimPrefix (s prefix : gostring) : gostring :=
  if HasPrefix s prefix then drop (length prefix) s else s.

(** [strings.SplitN] for a non-empty separator and [n >= 0]: at most [n]
    substrings, the last one being the unsplit remainder. *)
Fixpoint SplitN (s sep : gostring) (n : nat) : list gostring :=
  match n with
  | O => []
  | S O => [s]
  | S n' =>
      let m := Index s sep in
      if m <? 0 then [s]
      else slice_to s m :: SplitN (slice_from s (m + len sep)) sep n'
  end.

(** [strings.HasSuffix]:
    [len(s) >= len(suffix) && s[len(s)-len(suffix):] == suffix]. *)
Definition HasSuffix (s suffix : gostring) : bool :=
  (len suffix <=? len s) && streq (slice_from s (len s - len suffix)) suffix.

(** [strings.TrimSuffix] *)
Definition TrimSuffix (s suffix : gostring) : gostring :=
  if HasSuffix s suffix then slice_to s (len s - len suffix) else s.

(** [strings.Split] for a non-empty separator: [SplitN] with a count that
    no split reaches, the separator occurring at most [len(s)] times. *)
Definition Split (s sep : gostring) : list gostring :=
  SplitN s sep (S (length s)).

End strings.

(** ** Errors and results *)

Inductive error : Type :=
| MissingOpeningDelimiter      (* "changeset missing opening frontmatter delimiter (---)" *)
| MissingClosingDelimiter      (* "changeset missing closing frontmatter delimiter (---)" *)
| InvalidFrontmatterFormat     (* "invalid frontmatter format, expected 'name: bump-type'" *)
| InvalidBumpType (s : gostring) (* "invalid bump type %q, expected patch, minor, or major" *)
| InvalidVersion (s : gostring)  (* "failed to parse current version %q: %w" *)
| ConfigError                  (* the error of loadConfig *)
| ListError.                   (* the error of listChangesets *)

Inductive result (A : Type) : Type :=
| Ok (a : A)
| Err (e : error).
Arguments Ok {A} a.
Arguments Err {A} e.

Definition bind {A B} (r : result A) (k : A -> result B) : result B :=
  match r with
  | Ok a => k a
  | Err e => Err e
  end.

Notation "x <- r ;; k" := (bind r (fun x => k))
  (at level 100, r at next level, right associativity, only parsing).

(** ** Changesets (changeset.go) *)

(** [type bumpType string] *)
Definition bumpType := gostring.

Definition patch : bumpType := lit "patch".
Definition minor : bumpType := lit "minor".
Definition major : bumpType := lit "major".

Record changeset : Type := mkChangeset {
  filepath : gostring;
  repoName : gostring;
  bump : bumpType;
  summary : gostring
}.

Definition parseBumpType (s : gostring) : result bumpType :=
  if streq s patch || streq s minor || streq s major then Ok s
  else Err (InvalidBumpType s).

Definition bumpPriority (b : bumpType) : Z :=
  if streq b patch then 1
  else if streq b minor then 2
  else if streq b major then 3
  else 0.

(** The tail shared by both parsers, from the frontmatter and the body on. *)
Definition parseFrontmatter (frontmatter body filePath : gostring)
  : result changeset :=
  match strings.SplitN frontmatter (lit ":") 2 with
  | [p0; p1] =>
      let repoName := strings.TrimSpace p0 in
      let bumpStr := strings.TrimSpace p1 in
      b <- parseBumpType bumpStr ;;
      Ok {| filepath := filePath; repoName := repoName; bump := b;
            summary := body |}
  | _ => Err InvalidFrontmatterFormat
  end.

(** [parseChangeset] of changeset.go: the closing delimiter is searched as
    ["\n---"], at the start of a line. *)
Definition parseChangeset (content filePath : gostring) : result changeset :=
  let content := strings.TrimSpace content in
  if negb (strings.HasPrefix content (lit "---")) then
    Err MissingOpeningDelimiter
  else
    let rest := slice_from content 3 in
    let idx := strings.Index rest (LF :: lit "---") in
    if idx <? 0 then Err MissingClosingDelimiter
    else
      let frontmatter := strings.TrimSpace (slice_to rest idx) in
      let body := strings.TrimSpace (slice_from rest (idx + 4)) in
      parseFrontmatter frontmatter body filePath.

Module internal_changeset.

(** [Parse] of internal/changeset/changeset.go: the closing delimiter is
    searched as ["---"], anywhere after the opening one. *)
Definition Parse (content filepath : gostring) : result changeset :=
  let content := strings.TrimSpace content in
  if negb (strings.HasPrefix content (lit "---")) then
    Err MissingOpeningDelimiter
  else
    let content := slice_from content 3 in
    let idx := strings.Index content (lit "---") in
    if idx <? 0 then Err MissingClosingDelimiter
    else
      let frontmatter := strings.TrimSpace (slice_to content idx) in
      let body := strings.TrimSpace (slice_from content (idx + 3)) in
      parseFrontmatter frontmatter body filepath.

End internal_changeset.

(** [changesetContent]: [fmt.Sprintf("---\n%s: %s\n---\n\n%s\n", ...)]. *)
Definition changesetContent (repoName : gostring) (bump : bumpType)
    (summary : gostring) : gostring :=
  lit "---" ++ [LF] ++ repoName ++ lit ": " ++ bump ++ [LF] ++ lit "---"
  ++ [LF; LF] ++ summary ++ [LF].

(** [highestBump]: the loop over [changes], starting from [patch]. *)
Definition highestBump (changes : list changeset) : bumpType :=
  fold_left
    (fun highest cs =>
       if bumpPriority (bump cs) >? bumpPriority highest then bump cs
       else highest)
    changes patch.

(** ** Semantic versions *)

Module semver.

(** Modelled from the spec: the semantic-version library used by
    [calculateNextVersion] (package [semver], imported from outside the
    repository) is not part of the sources.  A version is a
    [major.minor.patch] triple of non-negative numbers, optionally followed
    by [-<pre-release>] and [+<build metadata>], "per standard
    semantic-versioning grammar"; "major bump resets minor and patch to zero
    and increments major; minor bump resets patch to zero and increments
    minor; patch bump increments patch only.  Pre-release/build metadata, if
    present, is dropped by any bump". *)
Record Version : Type := mkVersion {
  vmajor : N;
  vminor : N;
  vpatch : N;
  pre : gostring;
  metadata : gostring
}.

Definition isDigit (r : rune) : bool := ((48 <=? r) && (r <=? 57))%N.

Definition isLetter (r : rune) : bool :=
  ((65 <=? r) && (r <=? 90) || (97 <=? r) && (r <=? 122))%N.

(** Characters of an identifier: [0-9A-Za-z-]. *)
Definition isIdentChar (r : rune) : bool :=
  isDigit r || isLetter r || (r =? 45)%N.

(** Value of a sequence of decimal digits. *)
Definition digitsValue (s : gostring) : N :=
  fold_left (fun acc c => (acc * 10 + (c - 48))%N) s 0%N.

Definition noLeadingZero (s : gostring) : bool :=
  match s with
  | 48%N :: _ :: _ => false
  | _ => true
  end.

(** A numeric identifier: non-empty, digits only, no leading zero. *)
Definition numeric (s : gostring) : option N :=
  match s with
  | [] => None
  | _ => if forallb isDigit s && noLeadingZero s then Some (digitsValue s)
         else None
  end.

(** [s] cut at the first [c]: the part before, and the part after if [c]
    occurs. *)
Fixpoint cut (c : rune) (s : gostring) : gostring * option gostring :=
  match s with
  | [] => ([], None)
  | x :: s' =>
      if (x =? c)%N then ([], Some s')
      else let '(a, b) := cut c s' in (x :: a, b)
  end.

(** [s] split at every [c]. *)
Fixpoint fields (c : rune) (s : gostring) : list gostring :=
  match s with
  | [] => [[]]
  | x :: s' =>
      if (x =? c)%N then [] :: fields c s'
      else match fields c s' with
           | [] => [[x]]
           | f :: fs => (x :: f) :: fs
           end
  end.

Definition validPreIdent (s : gostring) : bool :=
  match s with
  | [] => false
  | _ => forallb isIdentChar s && (negb (forallb isDigit s) || noLeadingZero s)
  end.

Definition validBuildIdent (s : gostring) : bool :=
  match s with
  | [] => false
  | _ => forallb isIdentChar s
  end.

Definition validOpt (valid : gostring -> bool) (o : option gostring) : bool :=
  match o with
  | None => true
  | Some s => forallb valid (fields 46%N s)
  end.

(** Modelled from the spec: [semver.NewVersion], accepting exactly the
    [major.minor.patch] triples with optional pre-release and build
    metadata; [None] stands for its error. *)
Definition NewVersion (v : gostring) : option Version :=
  let '(corepre, build) := cut 43%N v in
  let '(core, prerelease) := cut 45%N corepre in
  match fields 46%N core with
  | [a; b; c] =>
      match numeric a, numeric b, numeric c with
      | Some ma, Some mi, Some pa =>
          if validOpt validPreIdent prerelease
             && validOpt validBuildIdent build
          then Some {| vmajor := ma; vminor := mi; vpatch := pa;
                       pre := default [] prerelease;
                       metadata := default [] build |}
          else None
      | _, _, _ => None
      end
  | _ => None
  end.

Fixpoint uintRunes (d : Decimal.uint) : gostring :=
  match d with
  | Decimal.Nil => []
  | Decimal.D0 d => 48%N :: uintRunes d
  | Decimal.D1 d => 49%N :: uintRunes d
  | Decimal.D2 d => 50%N :: uintRunes d
  | Decimal.D3 d => 51%N :: uintRunes d
  | Decimal.D4 d => 52%N :: uintRunes d
  | Decimal.D5 d => 53%N :: uintRunes d
  | Decimal.D6 d => 54%N :: uintRunes d
  | Decimal.D7 d => 55%N :: uintRunes d
  | Decimal.D8 d => 56%N :: uintRunes d
  | Decimal.D9 d => 57%N :: uintRunes d
  end.

(** Decimal notation of a number. *)
Definition decimal (n : N) : gostring := uintRunes (N.to_uint n).

(** Modelled from the spec: [Version.String], the [major.minor.patch]
    notation followed by the pre-release and build metadata when present. *)
Definition String (v : Version) : gostring :=
  decimal (vmajor v) ++ lit "." ++ decimal (vminor v) ++ lit "."
  ++ decimal (vpatch v)
  ++ (if streq (pre v) [] then [] else lit "-" ++ pre v)
  ++ (if streq (metadata v) [] then [] else lit "+" ++ metadata v).

(** Modelled from the spec: the major increment of the semver library, which
    is not part of the sources. *)
Definition IncMajor (v : Version) : Version :=
  {| vmajor := vmajor v + 1; vminor := 0; vpatch := 0;
     pre := []; metadata := [] |}.

(** Modelled from the spec: the minor increment of the same library. *)
Definition IncMinor (v : Version) : Version :=
  {| vmajor := vmajor v; vminor := vminor v + 1; vpatch := 0;
     pre := []; metadata := [] |}.

(** Modelled from the spec: the patch increment of the same library. *)
Definition IncPatch (v : Version) : Version :=
  {| vmajor := vmajor v; vminor := vminor v; vpatch := vpatch v + 1;
     pre := []; metadata := [] |}.

(** The zero value of [Version] ([var next semver.Version]). *)
Definition zero : Version :=
  {| vmajor := 0; vminor := 0; vpatch := 0; pre := []; metadata := [] |}.

End semver.

(** ** Version calculation (main.go) *)

(** [type config struct { Version string }] *)
Record config : Type := mkConfig { Version : gostring }.

(** [calculateNextVersion].  The two reads of the file system, [loadConfig]
    and [listChangesets], are passed as their results.  The variant of the
    layered main.go differs only in not returning the configuration. *)
Definition calculateNextVersion (loadConfig : result config)
    (listChangesets : result (list changeset))
  : result (gostring * list changeset * config) :=
  cfg <- loadConfig ;;
  changes <- listChangesets ;;
  if len_list changes =? 0 then Ok (Version cfg, [], cfg)
  else
    let currentVersion := strings.TrimPrefix (Version cfg) (lit "v") in
    match semver.NewVersion currentVersion with
    | None => Err (InvalidVersion (Version cfg))
    | Some ver =>
        let bump := highestBump changes in
        let next :=
          if streq bump major then semver.IncMajor ver
          else if streq bump minor then semver.IncMinor ver
          else if streq bump patch then semver.IncPatch ver
          else semver.zero in
        let nextVerStr := lit "v" ++ semver.String next in
        Ok (nextVerStr, changes, cfg)
    end.

(** The contract [computeNext(currentVersion, pending)]: the version
    calculation on a configuration and a pending list that were read without
    error, projected on the next version string. *)
Definition computeNext (currentVersion : gostring) (pending : list changeset)
  : result gostring :=
  r <- calculateNextVersion (Ok (mkConfig currentVersion)) (Ok pending) ;;
  Ok (fst (fst r)).

(** ** Changelog section (main.go) *)

Section changelog.

(** [time.Now().Format("2006-01-02")] *)
Variable date : gostring.

(** The short commit reference [getFileCommitSHA] yields for a path, empty
    when there is none; its error is dropped by the caller. *)
Variable getFileCommitSHA : gostring -> gostring.

(** [groups[k]] of a Go map: the zero value (nil slice) for a missing key. *)
Definition group (groups : gmap bumpType (list changeset)) (k : bumpType)
  : list changeset :=
  default [] (groups !! k).

(** One round of [for _, cs := range items] in [writeGroup]. *)
Definition writeItem (sb : gostring) (cs : changeset) : gostring :=
  let sha := getFileCommitSHA (filepath cs) in
  if negb (streq sha []) then
    sb ++ (lit "- " ++ sha ++ lit ": " ++ summary cs ++ [LF])
  else
    sb ++ (lit "- " ++ summary cs ++ [LF]).

(** The closure [writeGroup], with the string builder [sb] threaded through. *)
Definition writeGroup (sb : gostring) (title : gostring)
    (items : list changeset) : gostring :=
  if len_list items =? 0 then sb
  else
    let sb := sb ++ ([LF] ++ lit "### " ++ title ++ [LF; LF]) in
    fold_left writeItem items sb.

Definition buildChangelogSection (ver : gostring) (changes : list changeset)
  : gostring :=
  let sb := [] in
  let sb := sb ++ (lit "## " ++ ver ++ lit " - " ++ date ++ [LF]) in
  let groups : gmap bumpType (list changeset) :=
    <[major := []]> (<[minor := []]> (<[patch := []]> ∅)) in
  let groups :=
    fold_left (fun groups cs =>
                 <[bump cs := group groups (bump cs) ++ [cs]]> groups)
      changes groups in
  let sb := writeGroup sb (lit "Major Changes") (group groups major) in
  let sb := writeGroup sb (lit "Minor Changes") (group groups minor) in
  let sb := writeGroup sb (lit "Patch Changes") (group groups patch) in
  sb.

(** The rendering as the specification words it: one list item per
    changeset, one section per non-empty group, the groups in the order
    major, minor, patch. *)
Definition entry_spec (cs : changeset) : gostring :=
  match getFileCommitSHA (filepath cs) with
  | [] => lit "- " ++ summary cs ++ [LF]
  | ref => lit "- " ++ ref ++ lit ": " ++ summary cs ++ [LF]
  end.

Definition members_spec (b : bumpType) (pending : list changeset)
  : list changeset :=
  filter (fun cs => bump cs = b) pending.

Definition section_spec (title : gostring) (members : list changeset)
  : gostring :=
  match members with
  | [] => []
  | _ => [LF] ++ lit "### " ++ title ++ [LF; LF]
         ++ concat (map entry_spec members)
  end.

Definition render_spec (ver : gostring) (pending : list changeset) : gostring :=
  lit "## " ++ ver ++ lit " - " ++ date ++ [LF]
  ++ section_spec (lit "Major Changes") (members_spec major pending)
  ++ section_spec (lit "Minor Changes") (members_spec minor pending)
  ++ section_spec (lit "Patch Changes") (members_spec patch pending).

End changelog.

(** ** Changelog merge (main.go) *)

(** [prependChangelog], as the content it hands to [os.WriteFile].
    [readFile] is the outcome of [os.ReadFile(path)]: [None] when the read
    fails, in which case [existing] stays empty. *)
Definition prependChangelog (readFile : option gostring) (section : gostring)
  : gostring :=
  let existing := match readFile with Some data => data | None => [] end in
  if streq existing [] then
    lit "# Changelog" ++ [LF; LF] ++ section
  else if strings.HasPrefix existing (lit "# ") then
    let idx := strings.Index existing [LF] in
    if idx >=? 0 then
      let header := slice_to existing (idx + 1) in
      let rest := slice_from existing (idx + 1) in
      let rest := strings.TrimLeft rest [LF] in
      header ++ [LF] ++ section ++ [LF] ++ rest
    else
      existing ++ [LF; LF] ++ section
  else
    section ++ [LF] ++ existing.

(** The changelog after the releases [sections], oldest first, starting from
    the document [doc]. *)
Definition release_all (doc : gostring) (sections : list gostring) : gostring :=
  fold_left (fun doc section => prependChangelog (Some doc) section)
    sections doc.

(** The first line of a document, without its line feed. *)
Fixpoint first_line (s : gostring) : gostring :=
  match s with
  | [] => []
  | c :: s' => if (c =? LF)%N then [] else c :: first_line s'
  end.

(** ** Occurrences *)

(** [sub] occurs in [s] at offset [i]. *)
Definition occurs_at (sub s : gostring) (i : nat) : Prop :=
  exists a b, s = a ++ sub ++ b /\ length a = i.

(** No leading and no trailing white space. *)
Definition trimmed (s : gostring) : Prop :=
  strings.TrimLeftFunc s strings.IsSpace = s /\
  strings.TrimRightFunc s strings.IsSpace = s.

(** The three recognized bump types. *)
Definition recognized (b : bumpType) : Prop :=
  b = patch \/ b = minor \/ b = major.

(** [l] is a line of [s]: it occurs in [s] between line boundaries. *)
Definition has_line (l s : gostring) : Prop :=
  exists a b, s = a ++ l ++ b /\
              (a = [] \/ exists a', a = a' ++ [LF]) /\
              (b = [] \/ exists b', b = LF :: b').

(** The block [fm] between the delimiters reads as the name [name] and the
    bump [b]: trimmed it is [<name>:<bump>] with a recognized bump, white
    space around either part being allowed. *)
Definition frontmatter_reads (fm name : gostring) (b : bumpType) : Prop :=
  exists p0 p1, strings.TrimSpace fm = p0 ++ lit ":" ++ p1 /\
                (58%N ∉ p0) /\
                strings.TrimSpace p0 = name /\
                strings.TrimSpace p1 = b /\
                recognized b.


(** A document that opens with the delimiter and holds a further ["---"],
    but none at the start of a line. *)
Definition unanchored_input : gostring :=
  lit "---" ++ [LF] ++ lit "repo: patch --- fix".

(** The highest priority among the bumps of a list, 0 for the empty list,
    and the bump type of a priority. *)
Definition maxPriority (changes : list changeset) : Z :=
  fold_right (fun cs m => Z.max (bumpPriority (bump cs)) m) 0 changes.

Definition of_priority (p : Z) : bumpType :=
  if p =? 3 then major else if p =? 2 then minor else patch.

(** ** Files and directories (changeset.go, main.go, words.go, git.go) *)

(** Outcomes with an error type of their own. *)
Inductive outcome (E A : Type) : Type :=
| Done (a : A)
| Failed (e : E).
Arguments Done {E A} a.
Arguments Failed {E A} e.

(** The errors of [parseFile]. *)
Inductive fileError : Type :=
| ReadFailed (path : gostring)   (* "failed to read changeset %s: %w" *)
| Malformed (e : error).         (* the error of parseChangeset *)

(** The errors of [listChangesets]. *)
Inductive listError : Type :=
| ReadDirFailed                                  (* "read changes directory: %w" *)
| ParseFailed (name : gostring) (e : fileError). (* "parse %s: %w" *)

(** The error of [cleanupChanges] past the directory read. *)
Inductive cleanupError : Type :=
| CleanupReadDirFailed               (* "failed to read changes directory: %w" *)
| RemoveFailed (name : gostring).    (* "failed to remove %s: %w" *)

(** What [os.ReadDir] gives for an entry: its name and whether it is a
    directory. *)
Record DirEntry : Type := mkDirEntry {
  Name : gostring;
  IsDir : bool
}.

(** The entries [listChangesets] and [cleanupChanges] act on: regular
    entries whose name ends with [.md]. *)
Definition isChangesetFile (entry : DirEntry) : bool :=
  negb (IsDir entry) && strings.HasSuffix (Name entry) (lit ".md").

Section files.

(** [os.ReadFile]: the data of a path, [None] for an error. *)
Variable ReadFile : gostring -> option gostring.

(** [filepath.Join] of a directory and an entry name. *)
Variable Join : gostring -> gostring -> gostring.

(** [parseFile] *)
Definition parseFile (path : gostring) : outcome fileError changeset :=
  match ReadFile path with
  | None => Failed (ReadFailed path)
  | Some data =>
      match parseChangeset data path with
      | Ok cs => Done cs
      | Err e => Failed (Malformed e)
      end
  end.

(** The loop of [listChangesets] over the entries, [result] being the slice
    built so far. *)
Fixpoint listLoop (changesDir : gostring) (entries : list DirEntry)
    (result : list changeset) : outcome listError (list changeset) :=
  match entries with
  | [] => Done result
  | entry :: entries' =>
      if IsDir entry then listLoop changesDir entries' result
      else if negb (strings.HasSuffix (Name entry) (lit ".md")) then
        listLoop changesDir entries' result
      else
        let path := Join changesDir (Name entry) in
        match parseFile path with
        | Failed e => Failed (ParseFailed (Name entry) e)
        | Done cs => listLoop changesDir entries' (result ++ [cs])
        end
  end.

(** [listChangesets]; [readDir] is the outcome of [os.ReadDir(changesDir)]. *)
Definition listChangesets (readDir : option (list DirEntry))
    (changesDir : gostring) : outcome listError (list changeset) :=
  match readDir with
  | None => Failed ReadDirFailed
  | Some entries => listLoop changesDir entries []
  end.

(** [os.Remove]: whether the removal of a path succeeds. *)
Variable Remove : gostring -> bool.

(** The loop of [cleanupChanges]: the entries left in the directory, and the
    error if a removal failed.  Entry names are unique in a directory, so a
    successful removal takes out exactly its entry. *)
Fixpoint cleanupLoop (changesDir : gostring) (entries : list DirEntry)
  : list DirEntry * option cleanupError :=
  match entries with
  | [] => ([], None)
  | entry :: entries' =>
      if IsDir entry then
        let '(kept, err) := cleanupLoop changesDir entries' in
        (entry :: kept, err)
      else if negb (strings.HasSuffix (Name entry) (lit ".md")) then
        let '(kept, err) := cleanupLoop changesDir entries' in
        (entry :: kept, err)
      else
        let path := Join changesDir (Name entry) in
        if Remove path then cleanupLoop changesDir entries'
        else (entry :: entries', Some (RemoveFailed (Name entry)))
  end.

(** [cleanupChanges]: the directory after the call (when it could be read)
    and the error, if any. *)
Definition cleanupChanges (readDir : option (list DirEntry))
    (changesDir : gostring) : option (list DirEntry) * option cleanupError :=
  match readDir with
  | None => (None, Some CleanupReadDirFailed)
  | Some entries =>
      let '(kept, err) := cleanupLoop changesDir entries in (Some kept, err)
  end.

End files.

(** An outcome as the plain error of a caller that does not look into it. *)
Definition asResult {E A} (o : outcome E A) (e : error) : result A :=
  match o with
  | Done a => Ok a
  | Failed _ => Err e
  end.

Module words.

(** [SlugToFilename] *)
Definition SlugToFilename (slug : gostring) : gostring := slug ++ lit ".md".

(** [FilenameToSlug] *)
Definition FilenameToSlug (filename : gostring) : gostring :=
  strings.TrimSuffix filename (lit ".md").

End words.

(** The text of [s] before its first [c], all of [s] without one. *)
Fixpoint until_rune (c : rune) (s : gostring) : gostring :=
  match s with
  | [] => []
  | x :: s' => if (x =? c)%N then [] else x :: until_rune c s'
  end.

(** The text of [s] after its last [c], all of [s] without one. *)
Definition last_segment (c : rune) (s : gostring) : gostring :=
  rev (until_rune c (rev s)).

Module git.

(** The error of [getFileCommitSHA]: "git log failed for %s: %w". *)
Inductive gitError : Type :=
| GitLogFailed (filePath : gostring).

(** [getFileCommitSHA], from the outcome of running
    [git log --diff-filter=A --format=%h -- filePath]: its standard output,
    [None] when the command fails. *)
Definition getFileCommitSHA (output : option gostring) (filePath : gostring)
  : outcome gitError gostring :=
  match output with
  | None => Failed (GitLogFailed filePath)
  | Some out =>
      let sha := strings.TrimSpace out in
      if streq sha [] then Done []
      else
        let lines := strings.Split sha [LF] in
        let result :=
          strings.TrimSpace (nth (length lines - 1) lines []) in
        Done result
  end.

(** The lookup [buildChangelogSection] makes: [sha, _ := getFileCommitSHA(..)],
    the empty string in case of an error. *)
Definition commitReference (output : gostring -> option gostring)
    (filePath : gostring) : gostring :=
  match getFileCommitSHA (output filePath) filePath with
  | Done sha => sha
  | Failed _ => []
  end.

End git.

(** ** The module name (config.go) *)

(** The errors of [moduleName]. *)
Inductive moduleError : Type :=
| OpenFailed           (* "open go.mod: %w" *)
| ScanFailed           (* "read go.mod: %w" *)
| NoModuleDirective.   (* "module directive not found in go.mod" *)

(** The loop of [moduleName] over the lines the scanner yields. *)
Fixpoint moduleLoop (lines : list gostring) : option gostring :=
  match lines with
  | [] => None
  | text :: lines' =>
      let line := strings.TrimSpace text in
      if strings.HasPrefix line (lit "module ") then
        let modulePath := strings.TrimPrefix line (lit "module ") in
        let modulePath := strings.TrimSpace modulePath in
        let parts := strings.Split modulePath (lit "/") in
        Some (nth (length parts - 1) parts [])
      else moduleLoop lines'
  end.

(** [moduleName].  [goMod] is the outcome of opening go.mod and scanning it:
    [None] when it cannot be opened, else the lines scanned and whether the
    scanner stopped on an error. *)
Definition moduleName (goMod : option (list gostring * bool))
  : outcome moduleError gostring :=
  match goMod with
  | None => Failed OpenFailed
  | Some (lines, scanErr) =>
      match moduleLoop lines with
      | Some name => Done name
      | None => if scanErr then Failed ScanFailed else Failed NoModuleDirective
      end
  end.

(** ** Sample data for the examples *)

Definition sample_Join (dir name : gostring) : gostring :=
  dir ++ lit "/" ++ name.

Definition sample_document : gostring :=
  lit "---" ++ [LF] ++ lit "repo: minor" ++ [LF] ++ lit "---" ++ [LF; LF]
  ++ lit "Add feature".

(** A file system with a well-formed [changes/one.md], a [changes/bad.md]
    without frontmatter, and an unreadable rest. *)
Definition sample_ReadFile (path : gostring) : option gostring :=
  if streq path (lit "changes/one.md") then Some sample_document
  else if streq path (lit "changes/bad.md") then Some (lit "no frontmatter")
  else None.

Definition sample_entries : list DirEntry :=
  [mkDirEntry (lit ".gitkeep") false;
   mkDirEntry (lit "archive.md") true;
   mkDirEntry (lit "one.md") false].

(** ** The commands (main.go) *)

(** [strings.EqualFold(s, "y")]: the letters that fold to [y] are [y] and
    [Y]. *)
Definition EqualFold_y (s : gostring) : bool :=
  streq s (lit "y") || streq s (lit "Y").

(** The errors of [cmdAdd]. *)
Inductive addError : Type :=
| AddModuleName (e : moduleError)      (* the error of moduleName *)
| NoInput                              (* "no input received" *)
| InvalidSelection (choice : gostring) (* "invalid selection: %q" *)
| EmptySummary                         (* "summary cannot be empty" *)
| SlugFailed                           (* the error of generateSlug *)
| WriteFailed.                         (* "failed to write changeset file: %w" *)

(** What [cmdAdd] does: fail, stop at the confirmation, or write [content]
    to [filePath]. *)
Inductive addResult : Type :=
| AddFailed (e : addError)
| AddAborted
| AddCreated (filePath content : gostring).

(** The [switch choice] of [cmdAdd]. *)
Definition selectBump (choice : gostring) : option bumpType :=
  if streq choice (lit "1") || streq choice (lit "patch") then Some patch
  else if streq choice (lit "2") || streq choice (lit "minor") then Some minor
  else if streq choice (lit "3") || streq choice (lit "major") then Some major
  else None.

Section commands.

(** [filepath.Join] *)
Variable Join : gostring -> gostring -> gostring.

(** [p.changes], the path of the changes directory. *)
Variable changesPath : gostring.

(** [cmdAdd].  [moduleNameR] is the outcome of [moduleName(p.root)], [input]
    the lines the scanner yields on standard input, [generateSlug] the slug
    generated ([None] for its error), and [writeOk] whether [os.WriteFile]
    succeeds.  What is printed is left out. *)
Definition cmdAdd (moduleNameR : outcome moduleError gostring)
    (input : list gostring) (generateSlug : option gostring) (writeOk : bool)
  : addResult :=
  match moduleNameR with
  | Failed e => AddFailed (AddModuleName e)
  | Done repoName =>
      match input with
      | [] => AddFailed NoInput
      | text1 :: input =>
          let choice := strings.TrimSpace text1 in
          match selectBump choice with
          | None => AddFailed (InvalidSelection choice)
          | Some bump =>
              match input with
              | [] => AddFailed NoInput
              | text2 :: input =>
                  let summary := strings.TrimSpace text2 in
                  if streq summary [] then AddFailed EmptySummary
                  else
                    let content := changesetContent repoName bump summary in
                    match input with
                    | [] => AddFailed NoInput
                    | text3 :: _ =>
                        let confirm := strings.TrimSpace text3 in
                        if negb (EqualFold_y confirm) then AddAborted
                        else
                          match generateSlug with
                          | None => AddFailed SlugFailed
                          | Some slug =>
                              let filename := words.SlugToFilename slug in
                              let filePath := Join changesPath filename in
                              if writeOk then AddCreated filePath content
                              else AddFailed WriteFailed
                          end
                    end
              end
          end
      end
  end.

(** The files a release reads and writes. *)
Record project : Type := mkProject {
  hasChangesets : bool;                       (* os.Stat(p.changesets) finds it *)
  configFile : result config;                 (* what loadConfig(p.config) gives *)
  changesEntries : option (list DirEntry);    (* os.ReadDir(p.changes) *)
  changelogFile : option gostring             (* os.ReadFile of CHANGELOG.md *)
}.

(** The errors of [cmdRelease]. *)
Inductive releaseError : Type :=
| NotInitialized       (* ".changesets directory not found. Run 'changesets init' first" *)
| CalculateFailed (e : error)      (* the error of calculateNextVersion *)
| NothingToRelease     (* "no changesets found, nothing to release" *)
| ChangelogWriteFailed (* "failed to write CHANGELOG.md: %w" *)
| ConfigWriteFailed    (* "failed to write config: %w" *)
| CleanupFailed (e : cleanupError).  (* the error of cleanupChanges *)

(** The contents of the changeset files, [os.Remove], the date of the day
    and the output of git for a path; whether the writes of CHANGELOG.md
    and config.json succeed. *)
Variable ReadFile : gostring -> option gostring.
Variable Remove : gostring -> bool.
Variable date : gostring.
Variable gitOutput : gostring -> option gostring.
Variable changelogWritable : bool.
Variable configWritable : bool.

(** [ensureChangesetsExist] *)
Definition ensureChangesetsExist (p : project) : option releaseError :=
  if negb (hasChangesets p) then Some NotInitialized else None.

(** [calculateNextVersion(p)] on the files of the project. *)
Definition calculateNextVersionOf (p : project)
  : result (gostring * list changeset * config) :=
  calculateNextVersion (configFile p)
    (asResult (listChangesets ReadFile Join (changesEntries p) changesPath)
       ListError).

(** [cmdNext]: the version it prints, or its error. *)
Definition cmdNext (p : project) : result gostring :=
  r <- calculateNextVersionOf p ;;
  Ok (fst (fst r)).

(** [cmdRelease]: the files after the call, and the version it prints or
    its error.  The configuration file is taken to read back as it was
    saved. *)
Definition cmdRelease (p : project) : project * outcome releaseError gostring :=
  match ensureChangesetsExist p with
  | Some e => (p, Failed e)
  | None =>
      match calculateNextVersionOf p with
      | Err e => (p, Failed (CalculateFailed e))
      | Ok (nextVerStr, changes, cfg) =>
          if len_list changes =? 0 then (p, Failed NothingToRelease)
          else
            let changelogSection :=
              buildChangelogSection date (git.commitReference gitOutput)
                nextVerStr changes in
            if negb changelogWritable then (p, Failed ChangelogWriteFailed)
            else
              let p :=
                {| hasChangesets := hasChangesets p;
                   configFile := configFile p;
                   changesEntries := changesEntries p;
                   changelogFile :=
                     Some (prependChangelog (changelogFile p) changelogSection)
                |} in
              let cfg := {| Version := nextVerStr |} in
              if negb configWritable then (p, Failed ConfigWriteFailed)
              else
                let p :=
                  {| hasChangesets := hasChangesets p;
                     configFile := Ok cfg;
                     changesEntries := changesEntries p;
                     changelogFile := changelogFile p |} in
                match cleanupChanges Join Remove (changesEntries p) changesPath
                with
                | (entries, Some e) =>
                    ({| hasChangesets := hasChangesets p;
                        configFile := configFile p;
                        changesEntries := entries;
                        changelogFile := changelogFile p |},
                     Failed (CleanupFailed e))
                | (entries, None) =>
                    ({| hasChangesets := hasChangesets p;
                        configFile := configFile p;
                        changesEntries := entries;
                        changelogFile := changelogFile p |},
                     Done nextVerStr)
                end
      end
  end.

End commands.

(** A project with one pending minor changeset, and the same after its
    release on 2026-02-14. *)
Definition sample_project : project :=
  mkProject true (Ok (mkConfig (lit "v1.0.0"))) (Some sample_entries)
    (Some (lit "# Changelog" ++ [LF])).

Definition sample_released : project :=
  mkProject true (Ok (mkConfig (lit "v1.1.0")))
    (Some [mkDirEntry (lit ".gitkeep") false;
           mkDirEntry (lit "archive.md") true])
    (Some (lit "# Changelog" ++ [LF; LF] ++ lit "## v1.1.0 - 2026-02-14"
           ++ [LF; LF] ++ lit "### Minor Changes" ++ [LF; LF]
           ++ lit "- Add feature" ++ [LF; LF])).

(** ** Slugs (words.go) *)

Module slug.

(** [var adjectives] *)
Definition adjectives : list gostring := map lit
  [
   "angry"; "brave"; "calm"; "dark"; "eager";
   "fair"; "glad"; "happy"; "icy"; "jolly";
   "keen"; "lazy"; "mild"; "neat"; "odd";
   "pink"; "quick"; "rare"; "safe"; "tall";
   "ugly"; "vast"; "warm"; "young"; "zany";
   "bold"; "cool"; "deep"; "easy"; "fast";
   "gold"; "hard"; "iron"; "just"; "kind";
   "lean"; "mean"; "nice"; "open"; "pale";
   "rich"; "slim"; "thin"; "used"; "wide";
   "able"; "bare"; "cute"; "dull"; "even";
   "fine"; "gray"; "high"; "idle"; "jade";
   "lame"; "lost"; "mass"; "new"; "old";
   "poor"; "raw"; "shy"; "tiny"; "wet";
   "apt"; "big"; "dry"; "fit"; "grim";
   "hot"; "ill"; "low"; "mad"; "red";
   "sad"; "tan"; "dim"; "flat"; "full";
   "green"; "huge"; "long"; "loud"; "pure";
   "real"; "ripe"; "soft"; "sour"; "tame";
   "true"; "vain"; "wild"; "wise"; "worn";
   "aged"; "blue"; "crisp"; "dense"; "fresh";
   "fuzzy"; "sharp"; "stark"; "steep"; "swift"]%string.

(** [var nouns] *)
Definition nouns : list gostring := map lit
  [
   "ant"; "bear"; "cat"; "deer"; "elk";
   "fox"; "goat"; "hawk"; "ibis"; "jay";
   "kite"; "lynx"; "moth"; "newt"; "owl";
   "puma"; "quail"; "robin"; "seal"; "toad";
   "vole"; "wolf"; "yak"; "bass"; "crab";
   "dove"; "frog"; "hare"; "lark"; "mole";
   "pike"; "wren"; "orca"; "swan"; "wasp";
   "crow"; "dusk"; "dawn"; "echo"; "fire";
   "gale"; "haze"; "jade"; "lake"; "mist";
   "noon"; "opal"; "peak"; "rain"; "snow";
   "tide"; "vale"; "wave"; "zinc"; "arch";
   "bolt"; "clay"; "dome"; "edge"; "fern";
   "glow"; "hill"; "iron"; "knot"; "leaf";
   "moss"; "nest"; "pond"; "reef"; "sand";
   "tree"; "vine"; "wood"; "bark"; "beam";
   "cape"; "dale"; "elm"; "flint"; "glen";
   "herb"; "isle"; "kern"; "lime"; "mint";
   "oak"; "pine"; "rose"; "sage"; "thorn";
   "ash"; "bay"; "dew"; "fig"; "gem";
   "hops"; "ink"; "jet"; "key"; "log"]%string.

(** The errors of [Generate]. *)
Inductive slugError : Type :=
| RandomFailed   (* "failed to generate random number: %w" *)
| Exhausted.     (* "failed to generate unique slug after 100 attempts" *)

(** [randomElement]; [draw] is what [rand.Int(rand.Reader, len(slice))]
    gives, a number below [len(slice)] or [None] for an error. *)
Definition randomElement (slice : list gostring) (draw : option nat)
  : option gostring :=
  match draw with
  | None => None
  | Some n => Some (nth n slice [])
  end.

Section generate.

(** [filepath.Join]; whether [os.Stat(path)] reports that the path does not
    exist; the successive draws of the random source. *)
Variable Join : gostring -> gostring -> gostring.
Variable notExist : gostring -> bool.
Variable draws : nat -> option nat.

(** The loop of [Generate] with [attempts] rounds left, [n] draws having
    been made. *)
Fixpoint generateLoop (changesDir : gostring) (attempts n : nat)
  : outcome slugError gostring :=
  match attempts with
  | O => Failed Exhausted
  | S attempts' =>
      match randomElement adjectives (draws n) with
      | None => Failed RandomFailed
      | Some adj1 =>
          match randomElement adjectives (draws (n + 1)) with
          | None => Failed RandomFailed
          | Some adj2 =>
              match randomElement nouns (draws (n + 2)) with
              | None => Failed RandomFailed
              | Some noun =>
                  let slug := adj1 ++ lit "-" ++ adj2 ++ lit "-" ++ noun in
                  let filename := slug ++ lit ".md" in
                  let path := Join changesDir filename in
                  if notExist path then Done slug
                  else generateLoop changesDir attempts' (n + 3)
              end
          end
      end
  end.

(** [Generate] *)
Definition Generate (changesDir : gostring) : outcome slugError gostring :=
  generateLoop changesDir 100 0.

End generate.

(** What [rand.Int] promises: a draw for a list is below its length.  The
    draws come in rounds of three, two for adjectives and one for nouns. *)
Definition draws_in_range (draws : nat -> option nat) : Prop :=
  forall k i, draws k = Some i ->
    (i < if (k mod 3 =? 2)%nat then length nouns
         else length adjectives)%nat.

End slug.

(** A changes directory in which only [one.md] exists. *)
Definition notExist_sample (path : gostring) : bool :=
  negb (streq path (lit "changes/one.md")).

(** * Facts about the string functions *)

Section string_facts.

Import strings.

Implicit Types (s p sub a b w : gostring) (f : rune -> bool).

Lemma HasPrefix_prefix s p : HasPrefix s p = true <-> p `prefix_of` s.
Proof.
  revert s; induction p as [|x p IH]; intros [|c s]; simpl.
  - split; [intros _; apply prefix_nil | reflexivity].
  - split; [intros _; apply prefix_nil | reflexivity].
  - split; [discriminate | intros [k Hk]; discriminate].
  - rewrite andb_true_iff, N.eqb_eq, IH. split.
    + intros [-> Hp]. by apply prefix_cons.
    + intros [k Hk]. injection Hk as -> ->. split; [done | by exists k].
Qed.

Lemma HasPrefix_app s b : HasPrefix (s ++ b) s = true.
Proof. apply HasPrefix_prefix. by exists b. Qed.

Lemma HasPrefix_length s p :
  HasPrefix s p = true -> (length p <= length s)%nat.
Proof. rewrite HasPrefix_prefix. apply prefix_length. Qed.

Lemma HasPrefix_drop s p :
  HasPrefix s p = true -> s = p ++ drop (length p) s.
Proof.
  rewrite HasPrefix_prefix. intros [k ->]. by rewrite drop_app_length.
Qed.

Lemma HasPrefix_head_ne c x s p : c <> x -> HasPrefix (c :: s) (x :: p) = false.
Proof. intros Hne. simpl. by apply N.eqb_neq in Hne as ->. Qed.

Lemma HasPrefix_nil_l p : HasPrefix [] p = true -> p = [].
Proof. by destruct p. Qed.

(** A prefix of [x ++ y] lies within [x] or is cut by the boundary. *)
Lemma prefix_app_cut p (x y : gostring) :
  p `prefix_of` x ++ y ->
  p `prefix_of` x \/ exists p2, p = x ++ p2 /\ p2 <> [] /\ p2 `prefix_of` y.
Proof.
  revert p; induction x as [|c x IH]; intros p Hp; simpl in *.
  - destruct p as [|e p]; [left; apply prefix_nil |].
    right. exists (e :: p). by repeat split.
  - destruct p as [|e p]; [left; apply prefix_nil |].
    pose proof (prefix_cons_inv_1 _ _ _ _ Hp) as ->.
    apply prefix_cons_inv_2 in Hp.
    destruct (IH _ Hp) as [H | (p2 & -> & Hne & H2)].
    + left. by apply prefix_cons.
    + right. by exists p2.
Qed.

(** ** [Index] *)

Lemma index_nat_nil sub :
  index_nat [] sub = if HasPrefix [] sub then Some 0%nat else None.
Proof. reflexivity. Qed.

Lemma index_nat_cons c s sub :
  index_nat (c :: s) sub =
  if HasPrefix (c :: s) sub then Some 0%nat
  else option_map S (index_nat s sub).
Proof. reflexivity. Qed.

Lemma index_nat_Some s sub n :
  index_nat s sub = Some n ->
  HasPrefix (drop n s) sub = true /\
  forall m, (m < n)%nat -> HasPrefix (drop m s) sub = false.
Proof.
  revert n; induction s as [|c s IH]; intros n.
  - rewrite index_nat_nil.
    destruct (HasPrefix [] sub) eqn:E; [|discriminate].
    intros [= <-]. split; [done | lia].
  - rewrite index_nat_cons.
    destruct (HasPrefix (c :: s) sub) eqn:E.
    + intros [= <-]. split; [done | lia].
    + destruct (index_nat s sub) as [k|] eqn:Ek; [|discriminate].
      intros [= <-]. destruct (IH k eq_refl) as [H1 H2].
      split; [done |]. intros [|m] Hm; [done |]. apply H2. lia.
Qed.

Lemma index_nat_None s sub m :
  index_nat s sub = None -> HasPrefix (drop m s) sub = false.
Proof.
  revert m; induction s as [|c s IH]; intros m.
  - rewrite index_nat_nil.
    destruct (HasPrefix [] sub) eqn:E; [discriminate |].
    intros _. by destruct m.
  - rewrite index_nat_cons.
    destruct (HasPrefix (c :: s) sub) eqn:E; [discriminate |].
    destruct (index_nat s sub) eqn:Ek; [discriminate |].
    intros _. destruct m; [done | by apply IH].
Qed.

Lemma index_nat_first s sub n :
  HasPrefix (drop n s) sub = true ->
  (forall m, (m < n)%nat -> HasPrefix (drop m s) sub = false) ->
  index_nat s sub = Some n.
Proof.
  revert s; induction n as [|n IH]; intros s H1 H2.
  - rewrite drop_0 in H1. destruct s.
    + by rewrite index_nat_nil, H1.
    + by rewrite index_nat_cons, H1.
  - pose proof (H2 0%nat ltac:(lia)) as H0. rewrite drop_0 in H0.
    destruct s as [|c s]; [rewrite drop_nil in H1; congruence |].
    rewrite index_nat_cons, H0, (IH s); [done | done |].
    intros m Hm. apply (H2 (S m)). lia.
Qed.

Lemma index_nat_absent s sub :
  (forall m, HasPrefix (drop m s) sub = false) -> index_nat s sub = None.
Proof.
  induction s as [|c s IH]; intros H.
  - pose proof (H 0%nat) as H0. rewrite drop_0 in H0.
    by rewrite index_nat_nil, H0.
  - pose proof (H 0%nat) as H0. rewrite drop_0 in H0.
    rewrite index_nat_cons, H0, IH; [done |].
    intros m. apply (H (S m)).
Qed.

(** A match lies within the string, so that the slices taken around it by
    the parsers are in range. *)
Lemma index_nat_bound s sub n :
  index_nat s sub = Some n -> (n + length sub <= length s)%nat.
Proof.
  intros H. pose proof H as H'. apply index_nat_Some in H as [H Hlt].
  apply HasPrefix_length in H. rewrite length_drop in H.
  destruct (decide (n <= length s)%nat); [lia |].
  assert (length sub = 0)%nat as Hs by lia.
  destruct sub; [|done]. exfalso.
  specialize (Hlt 0%nat ltac:(lia)). by destruct s.
Qed.

(** Occurrences, read off [HasPrefix]. *)
Lemma occurs_at_HasPrefix sub s i :
  occurs_at sub s i <-> (i <= length s)%nat /\ HasPrefix (drop i s) sub = true.
Proof.
  split.
  - intros (a & b & -> & <-). split.
    + rewrite length_app. lia.
    + rewrite drop_app_length. apply HasPrefix_app.
  - intros [Hi H]. apply HasPrefix_drop in H.
    exists (take i s), (drop (length sub) (drop i s)). split.
    + by rewrite <- H, take_drop.
    + rewrite length_take. lia.
Qed.

Lemma Index_found s sub n :
  Index s sub = Z.of_nat n <->
  occurs_at sub s n /\ forall m, (m < n)%nat -> ~ occurs_at sub s m.
Proof.
  unfold Index. split.
  - destruct (index_nat s sub) as [k|] eqn:E; [|lia].
    intros Hk. assert (k = n) as -> by lia.
    pose proof (index_nat_bound _ _ _ E) as Hb.
    apply index_nat_Some in E as [H1 H2]. split.
    + apply occurs_at_HasPrefix. split; [lia | done].
    + intros m Hm [_ Ho]%occurs_at_HasPrefix. rewrite H2 in Ho; done.
  - intros [[Hn H1]%occurs_at_HasPrefix H2].
    rewrite (index_nat_first s sub n); [done | done |].
    intros m Hm. destruct (HasPrefix (drop m s) sub) eqn:E; [|done].
    exfalso. apply (H2 m Hm). apply occurs_at_HasPrefix. split; [lia | done].
Qed.

Lemma Index_absent s sub :
  Index s sub = -1 <-> forall m, ~ occurs_at sub s m.
Proof.
  unfold Index. split.
  - destruct (index_nat s sub) as [k|] eqn:E; [lia |].
    intros _ m [_ Ho]%occurs_at_HasPrefix.
    by rewrite (index_nat_None _ _ m E) in Ho.
  - intros H. destruct (index_nat s sub) as [k|] eqn:E; [|done].
    exfalso. pose proof (index_nat_bound _ _ _ E) as Hb.
    apply index_nat_Some in E as [H1 _].
    apply (H k), occurs_at_HasPrefix. split; [lia | done].
Qed.

Lemma Index_range s sub : -1 <= Index s sub.
Proof. unfold Index. destruct (index_nat s sub); lia. Qed.

(** The first occurrence of [sub] in [a ++ sub ++ b] is the one shown, when
    [sub] does not occur in [a] and no proper suffix of [sub] starts like
    [sub] (its first character does not occur again in it). *)
Lemma index_nat_app_first a c q b :
  c ∉ q ->
  index_nat a (c :: q) = None ->
  index_nat (a ++ (c :: q) ++ b) (c :: q) = Some (length a).
Proof.
  intros Hc Ha. apply index_nat_first.
  - rewrite drop_app_length. apply HasPrefix_app.
  - intros m Hm. destruct (HasPrefix _ _) eqn:E; [|done]. exfalso.
    rewrite <- (take_drop m a), <- app_assoc in E.
    rewrite drop_app_length' in E by (rewrite length_take; lia).
    apply HasPrefix_prefix, prefix_app_cut in E
      as [E | (p2 & Hp & Hne & E)].
    + apply HasPrefix_prefix in E.
      by rewrite (index_nat_None _ _ m Ha) in E.
    + assert (drop m a <> []) as Hd.
      { intros Hd%(f_equal length). rewrite length_drop in Hd. simpl in Hd. lia. }
      destruct (drop m a) as [|e d]; [done |].
      injection Hp as <- Hq.
      destruct p2 as [|e2 p2]; [done |].
      destruct E as [k Hk]. injection Hk as <- _.
      apply Hc. rewrite Hq. apply elem_of_app. right. left.
Qed.

(** The same for any [sub = q ++ [z]], when [sub] does not start within [a]
    even with [q] appended. *)
Lemma index_nat_app_first_overlap a q z b :
  index_nat (a ++ q) (q ++ [z]) = None ->
  index_nat (a ++ (q ++ [z]) ++ b) (q ++ [z]) = Some (length a).
Proof.
  intros Ha. apply index_nat_first.
  - rewrite drop_app_length. apply HasPrefix_app.
  - intros m Hm. destruct (HasPrefix _ _) eqn:E; [|done]. exfalso.
    pose proof (index_nat_None _ _ m Ha) as Hnone.
    rewrite drop_app_le in E, Hnone by lia.
    assert (q ++ [z] `prefix_of` drop m a ++ q) as Hp; [|
      apply HasPrefix_prefix in Hp; by rewrite Hp in Hnone].
    apply HasPrefix_prefix in E.
    assert (drop m a ++ q `prefix_of` drop m a ++ (q ++ [z]) ++ b) as Hq.
    { apply prefix_app. rewrite <- app_assoc. by apply prefix_app_r. }
    destruct (prefix_weak_total _ _ _ E Hq) as [H | H]; [done |].
    rewrite (prefix_length_eq _ _ H); [done |].
    rewrite !length_app, length_drop. simpl. lia.
Qed.

(** No occurrence of [sub] is created by appending [v] to [u] when the head
    of [sub] is not in [v] and the head of [v] is not in [sub]. *)
Lemma index_nat_app_none u v c q :
  index_nat u (c :: q) = None ->
  c ∉ v ->
  (forall e v', v = e :: v' -> e ∉ c :: q) ->
  index_nat (u ++ v) (c :: q) = None.
Proof.
  intros Hu Hc Hv. apply index_nat_absent. intros m.
  destruct (HasPrefix _ _) eqn:E; [|done]. exfalso.
  destruct (decide (m < length u)%nat) as [Hm|Hm].
  - rewrite <- (take_drop m u), <- app_assoc in E.
    rewrite drop_app_length' in E by (rewrite length_take; lia).
    apply HasPrefix_prefix, prefix_app_cut in E
      as [E | (p2 & Hp & Hne & E)].
    + apply HasPrefix_prefix in E.
      by rewrite (index_nat_None _ _ m Hu) in E.
    + destruct p2 as [|e2 p2]; [done |].
      destruct E as [k Hk]. apply (Hv e2 (p2 ++ k)); [done |].
      rewrite Hp. apply elem_of_app. right. left.
  - rewrite drop_app_ge in E by lia.
    apply HasPrefix_prefix in E as [k Hk].
    apply Hc. rewrite <- (take_drop (m - length u) v), Hk.
    apply elem_of_app. right. left.
Qed.

End string_facts.

(** ** Trimming *)

Section trim_facts.

Import strings.

Implicit Types (s a b w : gostring) (f : rune -> bool).

Lemma TrimLeftFunc_all w f : forallb f w = true -> TrimLeftFunc w f = [].
Proof.
  induction w as [|c w IH]; simpl; [done |].
  intros [-> H]%andb_true_iff. by apply IH.
Qed.

Lemma TrimLeftFunc_nil_inv w f : TrimLeftFunc w f = [] -> forallb f w = true.
Proof.
  induction w as [|c w IH]; simpl; [done |].
  destruct (f c); [exact IH | discriminate].
Qed.

Lemma TrimLeftFunc_skip w s f :
  forallb f w = true -> TrimLeftFunc (w ++ s) f = TrimLeftFunc s f.
Proof.
  induction w as [|c w IH]; simpl; [done |].
  intros [-> H]%andb_true_iff. by apply IH.
Qed.

Lemma TrimLeftFunc_app_ne a b f :
  TrimLeftFunc a f <> [] -> TrimLeftFunc (a ++ b) f = TrimLeftFunc a f ++ b.
Proof.
  induction a as [|c a IH]; simpl; [done |].
  destruct (f c); [exact IH | done].
Qed.

Lemma TrimLeftFunc_stop c s f : f c = false -> TrimLeftFunc (c :: s) f = c :: s.
Proof. intros H. simpl. by rewrite H. Qed.

Lemma TrimLeftFunc_head s f :
  TrimLeftFunc s f = s -> s = [] \/ exists c s', s = c :: s' /\ f c = false.
Proof.
  destruct s as [|c s']; [by left |]. simpl.
  destruct (f c) eqn:E; [|right; by exists c, s'].
  intros H. exfalso.
  assert (forall t, length (TrimLeftFunc t f) <= length t)%nat as Hlen.
  { induction t as [|e t IHt]; simpl; [lia |]. destruct (f e); simpl; lia. }
  specialize (Hlen s'). rewrite H in Hlen. simpl in Hlen. lia.
Qed.

Lemma TrimLeftFunc_idem s f :
  TrimLeftFunc (TrimLeftFunc s f) f = TrimLeftFunc s f.
Proof.
  induction s as [|c s IH]; simpl; [done |].
  destruct (f c) eqn:E; [exact IH |]. simpl. by rewrite E.
Qed.

Lemma forallb_rev f w : forallb f (rev w) = forallb f w.
Proof.
  induction w as [|c w IH]; simpl; [done |].
  rewrite forallb_app, IH. simpl. rewrite andb_true_r. apply andb_comm.
Qed.

Lemma TrimRightFunc_nil f : TrimRightFunc [] f = [].
Proof. reflexivity. Qed.

Lemma TrimRightFunc_all w f : forallb f w = true -> TrimRightFunc w f = [].
Proof.
  intros H. unfold TrimRightFunc. rewrite TrimLeftFunc_all; [done |].
  by rewrite forallb_rev.
Qed.

Lemma TrimRightFunc_skip s w f :
  forallb f w = true -> TrimRightFunc (s ++ w) f = TrimRightFunc s f.
Proof.
  intros H. unfold TrimRightFunc. rewrite rev_app_distr, TrimLeftFunc_skip; [done |].
  by rewrite forallb_rev.
Qed.

Lemma TrimRightFunc_app_ne a b f :
  TrimRightFunc b f <> [] -> TrimRightFunc (a ++ b) f = a ++ TrimRightFunc b f.
Proof.
  intros H. unfold TrimRightFunc in *.
  rewrite rev_app_distr, TrimLeftFunc_app_ne.
  - by rewrite rev_app_distr, rev_involutive.
  - intros E. apply H. by rewrite E.
Qed.

Lemma TrimRightFunc_stop s c t f :
  f c = false -> TrimRightFunc (s ++ c :: t) f = s ++ c :: TrimRightFunc t f.
Proof.
  intros H. unfold TrimRightFunc.
  rewrite rev_app_distr. simpl. rewrite <- app_assoc. simpl.
  destruct (TrimLeftFunc (rev t) f) as [|e r] eqn:E.
  - rewrite TrimLeftFunc_skip by (by apply TrimLeftFunc_nil_inv).
    rewrite TrimLeftFunc_stop by done. simpl.
    by rewrite rev_involutive.
  - rewrite TrimLeftFunc_app_ne by (by rewrite E). rewrite E.
    rewrite rev_app_distr. simpl. rewrite rev_involutive.
    by rewrite <- app_assoc.
Qed.

Lemma TrimRightFunc_cons c b f :
  TrimRightFunc (c :: b) f =
  match TrimRightFunc b f with
  | [] => if f c then [] else [c]
  | t => c :: t
  end.
Proof.
  destruct (TrimRightFunc b f) as [|e t] eqn:E.
  - unfold TrimRightFunc in *. simpl.
    assert (TrimLeftFunc (rev b) f = []) as E'.
    { apply (f_equal (@rev _)) in E. by rewrite rev_involutive in E. }
    rewrite TrimLeftFunc_skip by (by apply TrimLeftFunc_nil_inv).
    simpl. by destruct (f c).
  - change (c :: b) with ([c] ++ b).
    rewrite (TrimRightFunc_app_ne [c] b f) by (by rewrite E).
    by rewrite E.
Qed.

Lemma TrimRightFunc_idem s f :
  TrimRightFunc (TrimRightFunc s f) f = TrimRightFunc s f.
Proof.
  unfold TrimRightFunc. by rewrite rev_involutive, TrimLeftFunc_idem.
Qed.

Lemma TrimRightFunc_last s f :
  TrimRightFunc s f = s -> s = [] \/ exists s' c, s = s' ++ [c] /\ f c = false.
Proof.
  unfold TrimRightFunc. intros H.
  assert (TrimLeftFunc (rev s) f = rev s) as H'.
  { rewrite <- H at 2. by rewrite rev_involutive. }
  apply TrimLeftFunc_head in H' as [H' | (c & r & H' & Hc)].
  - left. apply (f_equal (@rev _)) in H'. by rewrite rev_involutive in H'.
  - right. exists (rev r), c. split; [|done].
    apply (f_equal (@rev _)) in H'. by rewrite rev_involutive in H'.
Qed.

(** The two trims commute. *)
Lemma Trim_comm s f :
  TrimLeftFunc (TrimRightFunc s f) f = TrimRightFunc (TrimLeftFunc s f) f.
Proof.
  induction s as [|c s IH]; [done |].
  rewrite TrimRightFunc_cons. simpl TrimLeftFunc at 2.
  destruct (f c) eqn:Ec.
  - destruct (TrimRightFunc s f) as [|e t] eqn:E.
    + rewrite <- IH. reflexivity.
    + rewrite <- IH. simpl. by rewrite Ec.
  - rewrite TrimRightFunc_cons.
    destruct (TrimRightFunc s f) as [|e t] eqn:E; simpl; by rewrite Ec.
Qed.

(** *** [TrimSpace] *)

Lemma TrimSpace_trimmed s : trimmed s -> TrimSpace s = s.
Proof. intros [Hl Hr]. unfold TrimSpace. by rewrite Hl, Hr. Qed.

Lemma TrimSpace_nil : TrimSpace [] = [].
Proof. reflexivity. Qed.

Lemma TrimSpace_skip_l w s :
  forallb IsSpace w = true -> TrimSpace (w ++ s) = TrimSpace s.
Proof. intros H. unfold TrimSpace. by rewrite TrimLeftFunc_skip. Qed.

Lemma TrimSpace_skip_r s w :
  forallb IsSpace w = true -> TrimSpace (s ++ w) = TrimSpace s.
Proof.
  intros H. unfold TrimSpace.
  by rewrite <- !Trim_comm, TrimRightFunc_skip.
Qed.

Lemma TrimSpace_TrimRight s :
  TrimSpace (TrimRightFunc s IsSpace) = TrimSpace s.
Proof.
  unfold TrimSpace. by rewrite <- !Trim_comm, TrimRightFunc_idem.
Qed.

(** Trimming a text that starts with a non-space character [c] and has a
    non-space character [d] later on only affects what follows [d]. *)
Lemma TrimSpace_keep c a d b :
  IsSpace c = false -> IsSpace d = false ->
  TrimSpace (c :: a ++ d :: b) = c :: a ++ d :: TrimRightFunc b IsSpace.
Proof.
  intros Hc Hd. unfold TrimSpace. rewrite TrimLeftFunc_stop by done.
  by rewrite (TrimRightFunc_stop (c :: a) d b).
Qed.

Lemma trimmed_nil : trimmed [].
Proof. by split. Qed.

Lemma trimmed_app a b :
  a <> [] -> b <> [] -> trimmed a -> trimmed b -> trimmed (a ++ b).
Proof.
  intros Ha Hb [Hal _] [_ Hbr]. split.
  - rewrite TrimLeftFunc_app_ne; rewrite Hal; done.
  - rewrite TrimRightFunc_app_ne; rewrite Hbr; done.
Qed.

End trim_facts.

(** * The changeset parser *)

(** Closed decidable goals, by evaluation. *)
Ltac solve_closed := apply (bool_decide_unpack _); vm_compute; exact I.

Section parser_facts.

Import strings.

Implicit Types (s fm body name summ filePath : gostring).

Lemma streq_true a b : streq a b = true <-> a = b.
Proof. unfold streq. apply bool_decide_eq_true. Qed.

Lemma streq_false a b : streq a b = false <-> a <> b.
Proof. unfold streq. apply bool_decide_eq_false. Qed.

Lemma occurs_at_drop sub s n i :
  (n <= length s)%nat ->
  occurs_at sub (drop n s) i <-> occurs_at sub s (n + i).
Proof.
  intros Hn. rewrite !occurs_at_HasPrefix, drop_drop, length_drop.
  split; intros [H1 H2]; (split; [lia | done]).
Qed.

Lemma index_nat_not_elem c q s : c ∉ s -> index_nat s (c :: q) = None.
Proof.
  intros Hc. apply index_nat_absent. intros m.
  destruct (HasPrefix _ _) eqn:E; [|done]. exfalso.
  apply HasPrefix_prefix in E as [k Hk]. apply Hc.
  rewrite <- (take_drop m s), Hk. apply elem_of_app. right. left.
Qed.

Lemma Index_of_nat s sub n :
  index_nat s sub = Some n -> Index s sub = Z.of_nat n.
Proof. unfold Index. by intros ->. Qed.

Lemma Index_none s sub : index_nat s sub = None -> Index s sub = -1.
Proof. unfold Index. by intros ->. Qed.

Lemma SplitN_2_found s sep n :
  index_nat s sep = Some n ->
  SplitN s sep 2 = [take n s; drop (n + length sep) s].
Proof.
  intros H. cbn [SplitN]. rewrite (Index_of_nat _ _ _ H).
  destruct (Z.ltb_spec (Z.of_nat n) 0); [lia |].
  unfold slice_to, slice_from, len.
  by rewrite Nat2Z.id, <- Nat2Z.inj_add, Nat2Z.id.
Qed.

Lemma SplitN_2_none s sep : index_nat s sep = None -> SplitN s sep 2 = [s].
Proof. intros H. cbn [SplitN]. by rewrite (Index_none _ _ H). Qed.

(** The frontmatter [p0 ++ ":" ++ p1] with no colon in [p0]. *)
Lemma parseFrontmatter_split p0 p1 body filePath :
  58%N ∉ p0 ->
  parseFrontmatter (p0 ++ lit ":" ++ p1) body filePath =
  (b <- parseBumpType (TrimSpace p1) ;;
   Ok (mkChangeset filePath (TrimSpace p0) b body)).
Proof.
  intros Hc. unfold parseFrontmatter.
  rewrite (SplitN_2_found _ _ (length p0)).
  - rewrite take_app_length.
    replace (length p0 + length (lit ":"))%nat
      with (length (p0 ++ lit ":")) by (rewrite length_app; done).
    by rewrite app_assoc, drop_app_length.
  - apply (index_nat_app_first p0 58%N [] p1); [by apply not_elem_of_nil |].
    by apply index_nat_not_elem.
Qed.

Lemma parseBumpType_recognized b : recognized b -> parseBumpType b = Ok b.
Proof. by intros [-> | [-> | ->]]. Qed.

Lemma slice_from_length a b : slice_from (a ++ b) (len a) = b.
Proof. unfold slice_from, len. by rewrite Nat2Z.id, drop_app_length. Qed.

Lemma slice_to_length a b : slice_to (a ++ b) (len a) = a.
Proof. unfold slice_to, len. by rewrite Nat2Z.id, take_app_length. Qed.

Lemma TrimSpace_document w fm body :
  forallb IsSpace w = true ->
  TrimSpace (w ++ lit "---" ++ fm ++ LF :: lit "---" ++ body) =
  lit "---" ++ fm ++ (LF :: lit "---") ++ TrimRightFunc body IsSpace.
Proof.
  intros Hw. rewrite TrimSpace_skip_l by done.
  pose proof (TrimSpace_keep 45%N ([45%N; 45%N] ++ fm ++ [LF; 45%N; 45%N])
                45%N body eq_refl eq_refl) as Ht.
  rewrite <- !app_assoc in Ht. exact Ht.
Qed.

(** A document whose opening delimiter is followed by a block [fm] without
    any ["\n---"], then by ["\n---"] and a body. *)
Lemma parseChangeset_delimited w fm body filePath :
  forallb IsSpace w = true ->
  index_nat fm (LF :: lit "---") = None ->
  parseChangeset (w ++ lit "---" ++ fm ++ LF :: lit "---" ++ body) filePath =
  parseFrontmatter (TrimSpace fm) (TrimSpace body) filePath.
Proof.
  intros Hw Hfm. unfold parseChangeset. cbv zeta.
  rewrite TrimSpace_document by done.
  rewrite HasPrefix_app. cbn [negb].
  change 3 with (len (lit "---")). rewrite slice_from_length.
  set (body' := TrimRightFunc body IsSpace).
  assert (index_nat (fm ++ (LF :: lit "---") ++ body') (LF :: lit "---")
          = Some (length fm)) as Hidx.
  { apply index_nat_app_first; [solve_closed | done]. }
  rewrite (Index_of_nat _ _ _ Hidx).
  destruct (Z.ltb_spec (Z.of_nat (length fm)) 0); [lia |].
  fold (len fm). rewrite slice_to_length.
  replace (len fm + 4) with (len (fm ++ LF :: lit "---"))
    by (unfold len; rewrite length_app; simpl; lia).
  rewrite app_assoc, slice_from_length.
  unfold body'. by rewrite TrimSpace_TrimRight.
Qed.

(** The same for [Parse] of internal/changeset, whose closing delimiter is
    the first ["---"] of any kind. *)
Lemma Parse_delimited fm body filePath :
  index_nat (fm ++ lit "--") (lit "---") = None ->
  internal_changeset.Parse (lit "---" ++ fm ++ lit "---" ++ body) filePath =
  parseFrontmatter (TrimSpace fm) (TrimSpace body) filePath.
Proof.
  intros Hfm. unfold internal_changeset.Parse. cbv zeta.
  assert (TrimSpace (lit "---" ++ fm ++ lit "---" ++ body)
          = lit "---" ++ fm ++ lit "---" ++ TrimRightFunc body IsSpace) as ->.
  { pose proof (TrimSpace_keep 45%N ([45%N; 45%N] ++ fm ++ [45%N; 45%N])
                  45%N body eq_refl eq_refl) as Ht.
    rewrite <- !app_assoc in Ht. exact Ht. }
  rewrite HasPrefix_app. cbn [negb].
  change 3 with (len (lit "---")). rewrite slice_from_length.
  set (body' := TrimRightFunc body IsSpace).
  assert (index_nat (fm ++ lit "---" ++ body') (lit "---")
          = Some (length fm)) as Hidx
    by (apply (index_nat_app_first_overlap fm (lit "--") 45%N body' Hfm)).
  rewrite (Index_of_nat _ _ _ Hidx).
  destruct (Z.ltb_spec (Z.of_nat (length fm)) 0); [lia |].
  fold (len fm). rewrite slice_to_length.
  replace (len fm + len (lit "---")) with (len (fm ++ lit "---"))
    by (unfold len; rewrite length_app; simpl; lia).
  rewrite app_assoc, slice_from_length.
  unfold body'. by rewrite TrimSpace_TrimRight.
Qed.

End parser_facts.

Section parser_theorems.

Import strings.

Implicit Types (s fm body name summ filePath content : gostring).

(** [parseChangeset] of changeset.go looks for the closing delimiter as the
    first ["\n---"] strictly after the opening delimiter: without one the
    parse fails with the missing-closing-delimiter error, and with one the
    frontmatter and the body are the texts on either side of the first. *)
Theorem parseChangeset_closing_delimiter content filePath :
  HasPrefix (TrimSpace content) (lit "---") = true ->
  ((forall i, (3 <= i)%nat ->
      ~ occurs_at (LF :: lit "---") (TrimSpace content) i) ->
   parseChangeset content filePath = Err MissingClosingDelimiter)
  /\
  (forall i, (3 <= i)%nat ->
     occurs_at (LF :: lit "---") (TrimSpace content) i ->
     (forall j, (3 <= j < i)%nat ->
        ~ occurs_at (LF :: lit "---") (TrimSpace content) j) ->
     parseChangeset content filePath =
     parseFrontmatter
       (TrimSpace (take (i - 3) (drop 3 (TrimSpace content))))
       (TrimSpace (drop (i + 4) (TrimSpace content))) filePath).
Proof.
  intros Hpre. unfold parseChangeset. cbv zeta. rewrite Hpre. cbn [negb].
  set (c := TrimSpace content) in *.
  assert (3 <= length c)%nat as Hlen by (apply HasPrefix_length in Hpre; done).
  change (slice_from c 3) with (drop 3 c).
  split.
  - intros Hno.
    assert (Index (drop 3 c) (LF :: lit "---") = -1) as ->; [|done].
    apply Index_absent. intros m Hm%occurs_at_drop; [|done].
    apply (Hno (3 + m)%nat); [lia | done].
  - intros i Hi Hocc Hfirst.
    assert (Index (drop 3 c) (LF :: lit "---") = Z.of_nat (i - 3)) as ->.
    { apply Index_found. split.
      - apply occurs_at_drop; [done |].
        by replace (3 + (i - 3))%nat with i by lia.
      - intros m Hm Ho%occurs_at_drop; [|done].
        apply (Hfirst (3 + m)%nat); [lia | done]. }
    destruct (Z.ltb_spec (Z.of_nat (i - 3)) 0); [lia |].
    unfold slice_to, slice_from. rewrite Nat2Z.id, drop_drop.
    by replace (3 + Z.to_nat (Z.of_nat (i - 3) + 4))%nat with (i + 4)%nat by lia.
Qed.

Lemma parseChangeset_closing_delimiter_witness :
  parseChangeset (lit "---" ++ [LF] ++ lit "repo: patch" ++ [LF] ++ lit "no closing")
    (lit "test.md") = Err MissingClosingDelimiter.
Proof.
  apply (parseChangeset_closing_delimiter
           (lit "---" ++ [LF] ++ lit "repo: patch" ++ [LF] ++ lit "no closing")
           (lit "test.md")).
  - reflexivity.
  - intros i _. revert i. apply Index_absent. reflexivity.
Defined.

(** C1: [Parse] of internal/changeset/changeset.go accepts [unanchored_input],
    a document that opens with the delimiter and has no ["\n---"] after it,
    where [parseChangeset] of changeset.go reports the missing closing
    delimiter. *)
Theorem Parse_accepts_unanchored_delimiter :
  HasPrefix unanchored_input (lit "---") = true /\
  Index (slice_from unanchored_input 3) (LF :: lit "---") = -1 /\
  internal_changeset.Parse unanchored_input (lit "test.md")
  = Ok (mkChangeset (lit "test.md") (lit "repo") patch (lit "fix")) /\
  parseChangeset unanchored_input (lit "test.md") = Err MissingClosingDelimiter.
Proof. repeat split; vm_compute; reflexivity. Qed.

(** C2 (as amended): a rendered changeset parses back to the package name,
    bump and summary it was rendered from, when the bump is recognized, the
    summary has no leading or trailing white space, and the package name has
    no leading or trailing white space, no colon and no line that begins
    with [---]. *)
Theorem changesetContent_roundtrip name b summ filePath :
  recognized b ->
  trimmed name ->
  58%N ∉ name ->
  (forall i, ~ occurs_at (LF :: lit "---") (LF :: name) i) ->
  trimmed summ ->
  parseChangeset (changesetContent name b summ) filePath
  = Ok (mkChangeset filePath name b summ).
Proof.
  intros Hb Hname Hcolon Hline Hsumm.
  apply Index_absent, (f_equal Z.succ) in Hline. unfold Index in Hline.
  destruct (index_nat (LF :: name) (LF :: lit "---")) as [k|] eqn:Hidx;
    [lia | clear Hline].
  unfold changesetContent.
  replace (lit "---" ++ [LF] ++ name ++ lit ": " ++ b ++ [LF] ++ lit "---"
           ++ [LF; LF] ++ summ ++ [LF])
    with ([] ++ lit "---" ++ ((LF :: name) ++ lit ": " ++ b)
          ++ LF :: lit "---" ++ ([LF; LF] ++ summ ++ [LF]))
    by (simpl; by rewrite <- !app_assoc).
  rewrite parseChangeset_delimited; [|done|].
  - change ((LF :: name) ++ lit ": " ++ b)
      with ([LF] ++ name ++ lit ":" ++ lit " " ++ b).
    rewrite (TrimSpace_skip_l [LF]) by done.
    rewrite (TrimSpace_skip_l [LF; LF]) by done.
    rewrite (TrimSpace_skip_r summ [LF]) by done.
    rewrite (TrimSpace_trimmed summ) by done.
    assert (TrimSpace (name ++ lit ":" ++ lit " " ++ b)
            = name ++ lit ":" ++ lit " " ++ b) as ->.
    { apply TrimSpace_trimmed. destruct name as [|c name'].
      - destruct Hb as [-> | [-> | ->]]; by split.
      - apply trimmed_app; [done | done | done |].
        destruct Hb as [-> | [-> | ->]]; by split. }
    rewrite parseFrontmatter_split by done.
    rewrite (TrimSpace_trimmed name) by done.
    assert (TrimSpace (lit " " ++ b) = b) as ->
      by (destruct Hb as [-> | [-> | ->]]; reflexivity).
    by rewrite parseBumpType_recognized.
  - apply index_nat_app_none; [done | |].
    + destruct Hb as [-> | [-> | ->]]; solve_closed.
    + intros e v' [= <- _]. solve_closed.
Qed.

Lemma changesetContent_roundtrip_witness :
  parseChangeset (changesetContent (lit "my-repo") minor (lit "Added feature"))
    (lit "test.md")
  = Ok (mkChangeset (lit "test.md") (lit "my-repo") minor (lit "Added feature")).
Proof.
  apply changesetContent_roundtrip.
  - right; left; reflexivity.
  - split; reflexivity.
  - solve_closed.
  - apply Index_absent. reflexivity.
  - split; reflexivity.
Defined.

(** Counterexample for C2: the round trip fails for a package name with a
    colon; the frontmatter is split at its first colon, and the rest is not
    a bump type. *)
Lemma changesetContent_roundtrip_colon :
  recognized patch /\ trimmed (lit "x") /\
  parseChangeset (changesetContent (lit "a:b") patch (lit "x")) (lit "test.md")
  = Err (InvalidBumpType (lit "b: patch")) /\
  parseChangeset (changesetContent (lit "a:b") patch (lit "x")) (lit "test.md")
  <> Ok (mkChangeset (lit "test.md") (lit "a:b") patch (lit "x")).
Proof.
  split; [by left |]. split; [by split |]. split; [reflexivity |].
  vm_compute. discriminate.
Qed.

Lemma has_line_TrimSpace body :
  has_line (lit "---") body -> has_line (lit "---") (TrimSpace body).
Proof.
  intros (a & b & -> & Ha & Hb). unfold TrimSpace.
  assert (exists a2, TrimLeftFunc (a ++ lit "---" ++ b) IsSpace
                     = a2 ++ lit "---" ++ b /\
                     (a2 = [] \/ exists a', a2 = a' ++ [LF])) as (a2 & -> & Ha2).
  { destruct (TrimLeftFunc a IsSpace) as [|e r] eqn:E.
    - exists []. split; [|by left].
      by rewrite TrimLeftFunc_skip by (by apply TrimLeftFunc_nil_inv).
    - exists (e :: r). split.
      + rewrite TrimLeftFunc_app_ne by (by rewrite E). by rewrite E.
      + right. destruct Ha as [-> | [a' ->]]; [done |].
        destruct (TrimLeftFunc a' IsSpace) as [|e' r'] eqn:E'.
        * rewrite TrimLeftFunc_skip in E by (by apply TrimLeftFunc_nil_inv).
          done.
        * rewrite TrimLeftFunc_app_ne in E by (by rewrite E').
          exists (TrimLeftFunc a' IsSpace). by rewrite <- E. }
  change (a2 ++ lit "---" ++ b) with (a2 ++ [45%N; 45%N] ++ 45%N :: b).
  rewrite app_assoc, TrimRightFunc_stop by done. rewrite <- app_assoc.
  exists a2, (TrimRightFunc b IsSpace). split; [done |]. split; [done |].
  destruct Hb as [-> | [b' ->]]; [by left |].
  rewrite TrimRightFunc_cons. destruct (TrimRightFunc b' IsSpace) as [|e t].
  - by left.
  - right. by exists (e :: t).
Qed.



(** [Parse] of internal/changeset keeps a [---] line of the body as well,
    for a frontmatter block in which no ["---"] starts. *)
Lemma Parse_horizontal_rule fm body name b filePath :
  (forall i, ~ occurs_at (lit "---") (fm ++ lit "--") i) ->
  frontmatter_reads fm name b ->
  has_line (lit "---") body ->
  exists summ,
    internal_changeset.Parse (lit "---" ++ fm ++ lit "---" ++ body) filePath
    = Ok (mkChangeset filePath name b summ) /\
    summ = TrimSpace body /\
    has_line (lit "---") summ.
Proof.
  intros Hfm (p0 & p1 & Hsplit & Hcolon & Hname & Hbump & Hb) Hline.
  exists (TrimSpace body). split; [|split; [done | by apply has_line_TrimSpace]].
  apply Index_absent, (f_equal Z.succ) in Hfm. unfold Index in Hfm.
  destruct (index_nat (fm ++ lit "--") (lit "---")) as [k|] eqn:Hidx;
    [lia | clear Hfm].
  rewrite (Parse_delimited fm body filePath Hidx).
  rewrite Hsplit, parseFrontmatter_split by done.
  by rewrite Hname, Hbump, parseBumpType_recognized.
Qed.

(** A package name with [---] inside: [parseChangeset] reads it, [Parse] of
    internal/changeset stops at it. *)
Example Parse_name_with_hyphens :
  parseChangeset (lit "---" ++ [LF] ++ lit "my---repo: minor" ++ [LF]
                  ++ lit "---" ++ [LF; LF] ++ lit "Fix") (lit "test.md")
  = Ok (mkChangeset (lit "test.md") (lit "my---repo") minor (lit "Fix")) /\
  internal_changeset.Parse (lit "---" ++ [LF] ++ lit "my---repo: minor" ++ [LF]
                            ++ lit "---" ++ [LF; LF] ++ lit "Fix") (lit "test.md")
  = Err InvalidFrontmatterFormat.
Proof. split; vm_compute; reflexivity. Qed.

End parser_theorems.

(** * The highest bump *)

Section bump_facts.

Implicit Types (b acc : bumpType) (cs : changeset) (l : list changeset).

Lemma bumpPriority_cases b :
  (b = patch /\ bumpPriority b = 1) \/
  (b = minor /\ bumpPriority b = 2) \/
  (b = major /\ bumpPriority b = 3) \/
  (~ recognized b /\ bumpPriority b = 0).
Proof.
  unfold bumpPriority.
  destruct (streq b patch) eqn:E1; [apply streq_true in E1; by left |].
  destruct (streq b minor) eqn:E2; [apply streq_true in E2; right; by left |].
  destruct (streq b major) eqn:E3;
    [apply streq_true in E3; right; right; by left |].
  right; right; right. split; [|done].
  apply streq_false in E1, E2, E3. by intros [? | [? | ?]].
Qed.

Lemma bumpPriority_range b : 0 <= bumpPriority b <= 3.
Proof. destruct (bumpPriority_cases b) as [[_ ->] | [[_ ->] | [[_ ->] | [_ ->]]]]; lia. Qed.

Lemma bumpPriority_recognized b : 1 <= bumpPriority b <-> recognized b.
Proof.
  destruct (bumpPriority_cases b)
    as [[Hb ->] | [[Hb ->] | [[Hb ->] | [Hb ->]]]]; unfold recognized;
    split; intros; try lia; try done; auto.
Qed.

Lemma bumpPriority_unrecognized b : ~ recognized b -> bumpPriority b = 0.
Proof.
  intros Hb. destruct (bumpPriority_cases b)
    as [[H _] | [[H _] | [[H _] | [_ H]]]]; [| | | done];
    exfalso; apply Hb; unfold recognized; auto.
Qed.

Lemma of_priority_bumpPriority b :
  recognized b -> of_priority (bumpPriority b) = b.
Proof. by intros [-> | [-> | ->]]. Qed.

Lemma maxPriority_nonneg l : 0 <= maxPriority l.
Proof. induction l as [|cs l IH]; simpl; lia. Qed.

Lemma maxPriority_app l1 l2 :
  maxPriority (l1 ++ l2) = Z.max (maxPriority l1) (maxPriority l2).
Proof.
  induction l1 as [|cs l1 IH]; simpl.
  - pose proof (maxPriority_nonneg l2). lia.
  - rewrite IH. lia.
Qed.

Lemma maxPriority_ge l cs :
  cs ∈ l -> bumpPriority (bump cs) <= maxPriority l.
Proof.
  induction 1 as [cs l | cs c l _ IH]; simpl; lia.
Qed.

Lemma maxPriority_attained l :
  l <> [] -> exists cs, cs ∈ l /\ bumpPriority (bump cs) = maxPriority l.
Proof.
  induction l as [|c l IH]; [done |]. intros _. simpl.
  destruct l as [|c' l'].
  - exists c. split; [left |]. simpl. pose proof (bumpPriority_range (bump c)). lia.
  - destruct IH as (cs & Hin & Hcs); [done |].
    destruct (Z.le_ge_cases (maxPriority (c' :: l')) (bumpPriority (bump c))).
    + exists c. split; [left | lia].
    + exists cs. split; [by right | lia].
Qed.

Lemma maxPriority_perm l l' : l ≡ₚ l' -> maxPriority l = maxPriority l'.
Proof. induction 1; simpl; lia. Qed.

(** The loop of [highestBump] from any recognized starting value. *)
Lemma highestBump_loop l acc :
  recognized acc ->
  fold_left
    (fun highest cs =>
       if bumpPriority (bump cs) >? bumpPriority highest then bump cs
       else highest) l acc
  = of_priority (Z.max (bumpPriority acc) (maxPriority l)).
Proof.
  revert acc; induction l as [|cs l IH]; intros acc Hacc; simpl.
  - pose proof (bumpPriority_range acc).
    rewrite Z.max_l by lia. by rewrite of_priority_bumpPriority.
  - apply bumpPriority_recognized in Hacc as Hge.
    destruct (Z.gtb_spec (bumpPriority (bump cs)) (bumpPriority acc)).
    + rewrite IH by (apply bumpPriority_recognized; lia). f_equal. lia.
    + rewrite IH by done. f_equal. lia.
Qed.

Lemma highestBump_of_priority l :
  highestBump l = of_priority (Z.max 1 (maxPriority l)).
Proof. unfold highestBump. by rewrite highestBump_loop by (by left). Qed.

Lemma of_priority_recognized p : recognized (of_priority p).
Proof.
  unfold of_priority, recognized.
  destruct (p =? 3); [auto |]. destruct (p =? 2); auto.
Qed.

Lemma highestBump_recognized l : recognized (highestBump l).
Proof. rewrite highestBump_of_priority. apply of_priority_recognized. Qed.

Lemma bumpPriority_highestBump l :
  bumpPriority (highestBump l) = Z.max 1 (maxPriority l).
Proof.
  rewrite highestBump_of_priority.
  assert (forall cs, cs ∈ l -> 0 <= bumpPriority (bump cs) <= 3) as Hr
    by (intros; apply bumpPriority_range).
  assert (0 <= maxPriority l <= 3) as Hm.
  { clear Hr. induction l as [|cs l IH]; simpl; [lia |].
    pose proof (bumpPriority_range (bump cs)). lia. }
  unfold of_priority.
  destruct (Z.eqb_spec (Z.max 1 (maxPriority l)) 3) as [-> | H3]; [done |].
  destruct (Z.eqb_spec (Z.max 1 (maxPriority l)) 2) as [-> | H2]; [done |].
  change (bumpPriority patch) with 1. lia.
Qed.

(** C6: for a non-empty list of changesets with recognized bumps,
    [highestBump] is the bump of one of them, no member has a higher
    priority in the order patch < minor < major, and the result is the same
    for every permutation of the list. *)
Theorem highestBump_maximum l :
  l <> [] ->
  Forall (fun cs => recognized (bump cs)) l ->
  bumpPriority patch < bumpPriority minor < bumpPriority major /\
  (exists cs, cs ∈ l /\ bump cs = highestBump l) /\
  (forall cs, cs ∈ l -> bumpPriority (bump cs) <= bumpPriority (highestBump l)) /\
  (forall l', l ≡ₚ l' -> highestBump l' = highestBump l).
Proof.
  intros Hne Hrec. split; [by compute |]. split; [|split].
  - destruct (maxPriority_attained l Hne) as (cs & Hin & Hcs).
    exists cs. split; [done |].
    rewrite Forall_forall in Hrec. pose proof (Hrec cs Hin) as Hr.
    rewrite highestBump_of_priority, <- Hcs.
    apply bumpPriority_recognized in Hr as Hge.
    rewrite Z.max_r by done. by rewrite of_priority_bumpPriority.
  - intros cs Hin. rewrite bumpPriority_highestBump.
    pose proof (maxPriority_ge l cs Hin). lia.
  - intros l' Hp. rewrite !highestBump_of_priority.
    by rewrite (maxPriority_perm l l' Hp).
Qed.

Lemma highestBump_maximum_witness :
  exists cs,
    cs ∈ [mkChangeset [] [] minor []; mkChangeset [] [] patch []] /\
    bump cs = highestBump [mkChangeset [] [] minor []; mkChangeset [] [] patch []].
Proof.
  apply (highestBump_maximum
           [mkChangeset [] [] minor []; mkChangeset [] [] patch []]).
  - discriminate.
  - constructor; [right; left; reflexivity |].
    constructor; [left; reflexivity | constructor].
Defined.

(** C10: [highestBump] is total on changesets with arbitrary bump strings.
    An unrecognized bump has priority 0, below [patch]; the result is always
    [patch], [minor] or [major]; it is [patch] for the empty list and for a
    list of unrecognized bumps only; and taking an unrecognized changeset
    out of the list never changes it. *)
Theorem highestBump_total :
  (forall b, ~ recognized b -> bumpPriority b = 0) /\
  0 < bumpPriority patch /\
  (forall l, recognized (highestBump l)) /\
  highestBump [] = patch /\
  (forall l, Forall (fun cs => ~ recognized (bump cs)) l ->
             highestBump l = patch) /\
  (forall l1 cs l2, ~ recognized (bump cs) ->
                    highestBump (l1 ++ cs :: l2) = highestBump (l1 ++ l2)).
Proof.
  split; [exact bumpPriority_unrecognized |]. split; [by compute |].
  split; [|split; [reflexivity | split]].
  - exact highestBump_recognized.
  - intros l Hl. rewrite highestBump_of_priority.
    assert (maxPriority l = 0) as ->; [|done].
    induction Hl as [|cs l Hcs _ IH]; simpl; [done |].
    rewrite IH, (bumpPriority_unrecognized _ Hcs). done.
  - intros l1 cs l2 Hcs. rewrite !highestBump_of_priority, !maxPriority_app.
    simpl. rewrite (bumpPriority_unrecognized _ Hcs).
    pose proof (maxPriority_nonneg l2). f_equal. lia.
Qed.

Lemma highestBump_total_witness :
  highestBump [mkChangeset [] [] (lit "urgent") []; mkChangeset [] [] minor []]
  = highestBump [mkChangeset [] [] minor []].
Proof.
  apply (highestBump_total : _ /\ _ /\ _ /\ _ /\ _ /\ _)
    with (l1 := []) (cs := mkChangeset [] [] (lit "urgent") []).
  simpl. intros [H | [H | H]]; discriminate H.
Defined.

End bump_facts.

(** * The version calculation *)

Section version_facts.

Implicit Types (cv : gostring) (pending : list changeset) (ver : semver.Version).

Lemma len_list_nonempty {A} (l : list A) : l <> [] -> (len_list l =? 0) = false.
Proof. destruct l; [done |]. intros _. unfold len_list. simpl. lia. Qed.

Lemma computeNext_empty cv : computeNext cv [] = Ok cv.
Proof. reflexivity. Qed.

Lemma computeNext_nonempty cv pending :
  pending <> [] ->
  computeNext cv pending =
  match semver.NewVersion (strings.TrimPrefix cv (lit "v")) with
  | None => Err (InvalidVersion cv)
  | Some ver =>
      Ok (lit "v" ++ semver.String
            (if streq (highestBump pending) major then semver.IncMajor ver
             else if streq (highestBump pending) minor then semver.IncMinor ver
             else if streq (highestBump pending) patch then semver.IncPatch ver
             else semver.zero))
  end.
Proof.
  intros Hne. unfold computeNext, calculateNextVersion. simpl.
  rewrite (len_list_nonempty _ Hne).
  by destruct (semver.NewVersion _).
Qed.

(** C3: with a current version that parses, an empty pending list gives the
    current version string back, and a non-empty one gives the version
    bumped by [highestBump]: major+1.0.0, major.minor+1.0 or
    major.minor.patch+1, without pre-release and build metadata. *)
Theorem computeNext_applies_highest_bump cv ver pending :
  semver.NewVersion (strings.TrimPrefix cv (lit "v")) = Some ver ->
  computeNext cv [] = Ok cv /\
  (pending <> [] ->
   exists next,
     computeNext cv pending = Ok (lit "v" ++ semver.String next) /\
     semver.pre next = [] /\ semver.metadata next = [] /\
     (highestBump pending = major ->
      semver.vmajor next = (semver.vmajor ver + 1)%N /\
      semver.vminor next = 0%N /\ semver.vpatch next = 0%N) /\
     (highestBump pending = minor ->
      semver.vmajor next = semver.vmajor ver /\
      semver.vminor next = (semver.vminor ver + 1)%N /\
      semver.vpatch next = 0%N) /\
     (highestBump pending = patch ->
      semver.vmajor next = semver.vmajor ver /\
      semver.vminor next = semver.vminor ver /\
      semver.vpatch next = (semver.vpatch ver + 1)%N)) /\
  computeNext (lit "v1.0.0") [mkChangeset [] [] patch []] = Ok (lit "v1.0.1") /\
  computeNext (lit "v1.0.0") [mkChangeset [] [] minor []] = Ok (lit "v1.1.0") /\
  computeNext (lit "v1.0.0") [mkChangeset [] [] major []] = Ok (lit "v2.0.0") /\
  computeNext (lit "v1.0.0") [] = Ok (lit "v1.0.0").
Proof.
  intros Hver. split; [reflexivity |].
  split; [|repeat split; reflexivity].
  intros Hne. rewrite (computeNext_nonempty _ _ Hne), Hver.
  destruct (highestBump_recognized pending) as [Hb | [Hb | Hb]]; rewrite Hb.
  - exists (semver.IncPatch ver). repeat split; try done; discriminate.
  - exists (semver.IncMinor ver). repeat split; try done; discriminate.
  - exists (semver.IncMajor ver). repeat split; try done; discriminate.
Qed.

Lemma computeNext_applies_highest_bump_witness :
  exists next,
    computeNext (lit "1.2.3-rc.1+build5") [mkChangeset [] [] minor []]
    = Ok (lit "v" ++ semver.String next) /\
    semver.pre next = [] /\ semver.metadata next = [] /\
    (highestBump [mkChangeset [] [] minor []] = major ->
     semver.vmajor next = (1 + 1)%N /\
     semver.vminor next = 0%N /\ semver.vpatch next = 0%N) /\
    (highestBump [mkChangeset [] [] minor []] = minor ->
     semver.vmajor next = 1%N /\
     semver.vminor next = (2 + 1)%N /\
     semver.vpatch next = 0%N) /\
    (highestBump [mkChangeset [] [] minor []] = patch ->
     semver.vmajor next = 1%N /\
     semver.vminor next = 2%N /\
     semver.vpatch next = (3 + 1)%N).
Proof.
  apply (proj1 (proj2 (computeNext_applies_highest_bump
                         (lit "1.2.3-rc.1+build5")
                         (semver.mkVersion 1 2 3 (lit "rc.1") (lit "build5"))
                         [mkChangeset [] [] minor []] eq_refl))).
  discriminate.
Defined.

(** C4 (as amended): when the current version string, stripped of its
    leading [v], is not a semantic version, the calculation fails with the
    invalid-version error for every non-empty pending list; for the empty
    list the string is returned as it is. *)
Theorem computeNext_invalid_version cv pending :
  semver.NewVersion (strings.TrimPrefix cv (lit "v")) = None ->
  (pending <> [] -> computeNext cv pending = Err (InvalidVersion cv)) /\
  computeNext cv [] = Ok cv.
Proof.
  intros Hver. split; [|reflexivity].
  intros Hne. by rewrite (computeNext_nonempty _ _ Hne), Hver.
Qed.

Lemma computeNext_invalid_version_witness :
  computeNext (lit "not-a-version") [mkChangeset [] [] patch []]
  = Err (InvalidVersion (lit "not-a-version")).
Proof.
  apply (computeNext_invalid_version (lit "not-a-version")
           [mkChangeset [] [] patch []]).
  - reflexivity.
  - discriminate.
Defined.

(** Counterexample for C4: with the empty pending list the version string
    is not parsed, and no error is returned. *)
Lemma computeNext_invalid_version_empty :
  ~ (forall cv pending,
       semver.NewVersion (strings.TrimPrefix cv (lit "v")) = None ->
       exists s, computeNext cv pending = Err (InvalidVersion s)).
Proof.
  intros H. destruct (H (lit "not-a-version") [] eq_refl) as [s Hs].
  discriminate Hs.
Qed.

(** C5 (as amended): the next version string of a non-empty pending list
    always starts with [v], whether the current version string did or
    not. *)
Theorem computeNext_v_prefix cv ver pending :
  semver.NewVersion (strings.TrimPrefix cv (lit "v")) = Some ver ->
  pending <> [] ->
  exists r, computeNext cv pending = Ok r /\
            strings.HasPrefix r (lit "v") = true.
Proof.
  intros Hver Hne. rewrite (computeNext_nonempty _ _ Hne), Hver.
  eexists. split; [reflexivity |]. apply HasPrefix_app.
Qed.

Lemma computeNext_v_prefix_witness :
  exists r, computeNext (lit "1.0.0") [mkChangeset [] [] patch []] = Ok r /\
            strings.HasPrefix r (lit "v") = true.
Proof.
  apply (computeNext_v_prefix (lit "1.0.0") (semver.mkVersion 1 0 0 [] [])).
  - reflexivity.
  - discriminate.
Defined.

(** Counterexample for C5: a current version string without the prefix
    gives a result with it. *)
Lemma computeNext_prefix_not_kept :
  ~ (forall cv pending ver r,
       semver.NewVersion (strings.TrimPrefix cv (lit "v")) = Some ver ->
       pending <> [] ->
       computeNext cv pending = Ok r ->
       (strings.HasPrefix r (lit "v") = true <->
        strings.HasPrefix cv (lit "v") = true)).
Proof.
  intros H.
  destruct (H (lit "1.0.0") [mkChangeset [] [] patch []]
              (semver.mkVersion 1 0 0 [] []) (lit "v1.0.1")
              eq_refl ltac:(discriminate) eq_refl) as [H1 _].
  specialize (H1 eq_refl). discriminate H1.
Qed.

End version_facts.

(** * The changelog section *)

Section changelog_facts.

Variable date : gostring.
Variable getFileCommitSHA : gostring -> gostring.

Implicit Types (cs : changeset) (l items pending : list changeset)
  (groups : gmap bumpType (list changeset)) (k : bumpType) (sb : gostring).

Lemma group_insert groups k k' v :
  group (<[k' := v]> groups) k = if decide (k' = k) then v else group groups k.
Proof. unfold group. rewrite lookup_insert. by case_decide. Qed.

Lemma group_empty k : group ∅ k = [].
Proof. unfold group. by rewrite lookup_empty. Qed.

Lemma group_initial k :
  group (<[major := []]> (<[minor := []]> (<[patch := []]> ∅))) k = [].
Proof. rewrite !group_insert, group_empty. by repeat case_decide. Qed.

(** After the grouping loop, the group of [k] holds the changesets of bump
    [k], in the order of the input. *)
Lemma group_loop l groups k :
  group (fold_left (fun groups cs =>
                      <[bump cs := group groups (bump cs) ++ [cs]]> groups)
           l groups) k
  = group groups k ++ members_spec k l.
Proof.
  unfold members_spec.
  revert groups; induction l as [|cs l IH]; intros groups; simpl.
  - by rewrite app_nil_r.
  - rewrite IH, group_insert, filter_cons.
    destruct (decide (bump cs = k)) as [-> | Hne].
    + by rewrite <- app_assoc.
    + done.
Qed.

Lemma writeItem_entry sb cs :
  writeItem getFileCommitSHA sb cs = sb ++ entry_spec getFileCommitSHA cs.
Proof.
  unfold writeItem, entry_spec.
  destruct (getFileCommitSHA (filepath cs)) as [|c sha] eqn:E; reflexivity.
Qed.

Lemma writeItems_entries items sb :
  fold_left (writeItem getFileCommitSHA) items sb
  = sb ++ concat (map (entry_spec getFileCommitSHA) items).
Proof.
  revert sb; induction items as [|cs items IH]; intros sb; simpl.
  - by rewrite app_nil_r.
  - by rewrite IH, writeItem_entry, <- app_assoc.
Qed.

Lemma writeGroup_section sb title items :
  writeGroup getFileCommitSHA sb title items
  = sb ++ section_spec getFileCommitSHA title items.
Proof.
  unfold writeGroup, section_spec. destruct items as [|cs items].
  - by rewrite app_nil_r.
  - rewrite len_list_nonempty by done.
    by rewrite writeItems_entries, <- !app_assoc.
Qed.

Lemma buildChangelogSection_render_spec ver pending :
  buildChangelogSection date getFileCommitSHA ver pending
  = render_spec date getFileCommitSHA ver pending.
Proof.
  unfold buildChangelogSection, render_spec. cbv zeta.
  rewrite !writeGroup_section, !group_loop, !group_initial.
  rewrite !app_nil_l. by rewrite <- !app_assoc.
Qed.

(** C8: the changelog section is the release header followed by the Major,
    Minor and Patch sections in that order; an empty group gives no text at
    all; the members of a group are the changesets of that bump in their
    input order; an entry is [- <reference>: <summary>] when the lookup
    gives a non-empty reference and [- <summary>] otherwise. *)
Theorem buildChangelogSection_render ver pending :
  buildChangelogSection date getFileCommitSHA ver pending
  = lit "## " ++ ver ++ lit " - " ++ date ++ [LF]
    ++ section_spec getFileCommitSHA (lit "Major Changes")
         (filter (fun cs => bump cs = major) pending)
    ++ section_spec getFileCommitSHA (lit "Minor Changes")
         (filter (fun cs => bump cs = minor) pending)
    ++ section_spec getFileCommitSHA (lit "Patch Changes")
         (filter (fun cs => bump cs = patch) pending)
  /\ (forall title, section_spec getFileCommitSHA title [] = [])
  /\ (forall title cs items,
        section_spec getFileCommitSHA title (cs :: items)
        = [LF] ++ lit "### " ++ title ++ [LF; LF]
          ++ concat (map (entry_spec getFileCommitSHA) (cs :: items)))
  /\ (forall k, filter (fun cs => bump cs = k) pending `sublist_of` pending)
  /\ (forall cs, getFileCommitSHA (filepath cs) <> [] ->
        entry_spec getFileCommitSHA cs
        = lit "- " ++ getFileCommitSHA (filepath cs) ++ lit ": "
          ++ summary cs ++ [LF])
  /\ (forall cs, getFileCommitSHA (filepath cs) = [] ->
        entry_spec getFileCommitSHA cs = lit "- " ++ summary cs ++ [LF]).
Proof.
  split; [|split; [done | split; [done | split; [|split]]]].
  - apply buildChangelogSection_render_spec.
  - intros k. apply sublist_filter.
  - intros cs H. unfold entry_spec.
    by destruct (getFileCommitSHA (filepath cs)).
  - intros cs H. unfold entry_spec. by rewrite H.
Qed.

End changelog_facts.

Lemma buildChangelogSection_render_witness :
  entry_spec (fun path => if streq path (lit "go.mod") then lit "abc1234" else [])
    (mkChangeset (lit "go.mod") [] patch (lit "Updated deps"))
  = lit "- " ++ lit "abc1234" ++ lit ": " ++ lit "Updated deps" ++ [LF].
Proof.
  apply (buildChangelogSection_render []
           (fun path => if streq path (lit "go.mod") then lit "abc1234" else [])
           [] [] : _ /\ _ /\ _ /\ _ /\ _ /\ _).
  discriminate.
Defined.

Example buildChangelogSection_example :
  buildChangelogSection (lit "2026-02-14") (fun _ => []) (lit "v2.0.0")
    [mkChangeset [] [] patch (lit "Bug fix");
     mkChangeset [] [] major (lit "Breaking change");
     mkChangeset [] [] patch (lit "Other fix")]
  = lit "## v2.0.0 - 2026-02-14" ++ [LF; LF]
    ++ lit "### Major Changes" ++ [LF; LF] ++ lit "- Breaking change" ++ [LF; LF]
    ++ lit "### Patch Changes" ++ [LF; LF] ++ lit "- Bug fix" ++ [LF]
    ++ lit "- Other fix" ++ [LF].
Proof. vm_compute. reflexivity. Qed.

(** * The changelog merge *)

Section merge_facts.

Import strings.

Implicit Types (doc h rest section s : gostring).

Lemma first_line_no_LF s : LF ∉ first_line s.
Proof.
  induction s as [|c s IH]; simpl; [apply not_elem_of_nil |].
  destruct (N.eqb_spec c LF) as [-> | Hne]; [apply not_elem_of_nil |].
  intros [H | H]%elem_of_cons; [by apply Hne | by apply IH].
Qed.

Lemma first_line_app h rest : LF ∉ h -> first_line (h ++ LF :: rest) = h.
Proof.
  induction h as [|c h IH]; intros Hh; simpl; [done |].
  apply not_elem_of_cons in Hh as [Hc Hh].
  destruct (N.eqb_spec c LF) as [-> | _]; [done |]. by rewrite IH.
Qed.

Lemma first_line_whole h : LF ∉ h -> first_line h = h.
Proof.
  induction h as [|c h IH]; intros Hh; simpl; [done |].
  apply not_elem_of_cons in Hh as [Hc Hh].
  destruct (N.eqb_spec c LF) as [-> | _]; [done |]. by rewrite IH.
Qed.

Lemma first_line_split s :
  s = first_line s \/ exists rest, s = first_line s ++ LF :: rest.
Proof.
  induction s as [|c s IH]; simpl; [by left |].
  destruct (N.eqb_spec c LF) as [-> | Hne]; [right; by exists s |].
  destruct IH as [IH | [rest IH]].
  - left. by rewrite <- IH.
  - right. exists rest. simpl. by rewrite <- IH.
Qed.

Lemma HasPrefix_first_line s :
  HasPrefix s (lit "# ") = true <-> HasPrefix (first_line s) (lit "# ") = true.
Proof.
  destruct s as [|c1 [|c2 s]]; simpl.
  - done.
  - destruct (N.eqb_spec c1 LF) as [-> | _]; simpl; [done |].
    by rewrite !andb_false_r.
  - destruct (N.eqb_spec c1 LF) as [-> | _]; simpl; [done |].
    destruct (N.eqb_spec c2 LF) as [-> | _]; simpl.
    + by rewrite !andb_false_r.
    + done.
Qed.

Lemma TrimLeft_suffix rest :
  exists n, rest = replicate n LF ++ TrimLeft rest [LF].
Proof.
  unfold TrimLeft. induction rest as [|c rest [n IH]].
  - by exists 0%nat.
  - cbn [TrimLeftFunc]. destruct (in_cutset [LF] c) eqn:E.
    + assert (c = LF) as ->.
      { unfold in_cutset in E. cbn [existsb] in E. rewrite orb_false_r in E.
        symmetry. by apply N.eqb_eq in E. }
      exists (S n). cbn [replicate app]. by rewrite <- IH.
    + by exists 0%nat.
Qed.

(** A document whose heading line [h] ends with a line feed. *)
Lemma prependChangelog_heading_rest h rest section :
  HasPrefix h (lit "# ") = true -> LF ∉ h ->
  prependChangelog (Some (h ++ LF :: rest)) section
  = h ++ [LF] ++ [LF] ++ section ++ [LF] ++ TrimLeft rest [LF].
Proof.
  intros Hp Hh. unfold prependChangelog. cbv zeta.
  assert (streq (h ++ LF :: rest) [] = false) as ->
    by (apply streq_false; by destruct h).
  assert (HasPrefix (h ++ LF :: rest) (lit "# ") = true) as ->.
  { apply HasPrefix_prefix. apply HasPrefix_prefix in Hp.
    by apply prefix_app_r. }
  assert (index_nat (h ++ [LF] ++ rest) [LF] = Some (length h)) as Hidx.
  { apply index_nat_app_first; [apply not_elem_of_nil |].
    by apply index_nat_not_elem. }
  change (h ++ LF :: rest) with (h ++ [LF] ++ rest).
  rewrite (Index_of_nat _ _ _ Hidx).
  destruct (Z.geb_spec (Z.of_nat (length h)) 0); [|lia].
  replace (Z.of_nat (length h) + 1) with (len (h ++ [LF]))
    by (unfold len; rewrite length_app; simpl; lia).
  rewrite (app_assoc h [LF] rest), slice_to_length, slice_from_length.
  by rewrite <- !app_assoc.
Qed.

(** A document that is a heading line without a line feed. *)
Lemma prependChangelog_heading_only h section :
  HasPrefix h (lit "# ") = true -> LF ∉ h ->
  prependChangelog (Some h) section = h ++ [LF; LF] ++ section.
Proof.
  intros Hp Hh. unfold prependChangelog. cbv zeta.
  assert (streq h [] = false) as -> by (apply streq_false; by destruct h).
  rewrite Hp, (Index_none h [LF]) by (by apply index_nat_not_elem).
  reflexivity.
Qed.

Lemma prependChangelog_first_line doc section :
  HasPrefix doc (lit "# ") = true ->
  first_line (prependChangelog (Some doc) section) = first_line doc.
Proof.
  intros Hp. pose proof (first_line_no_LF doc) as Hno.
  apply HasPrefix_first_line in Hp.
  destruct (first_line_split doc) as [E | [rest E]]; rewrite E at 1.
  - rewrite prependChangelog_heading_only by done.
    change (first_line doc ++ [LF; LF] ++ section)
      with (first_line doc ++ LF :: ([LF] ++ section)).
    by apply first_line_app.
  - rewrite prependChangelog_heading_rest by done.
    by apply first_line_app.
Qed.

Lemma release_all_first_line doc sections :
  first_line doc = lit "# Changelog" ->
  first_line (release_all doc sections) = lit "# Changelog".
Proof.
  unfold release_all.
  revert doc; induction sections as [|section sections IH]; intros doc Hd;
    simpl; [done |].
  apply IH. rewrite prependChangelog_first_line; [done |].
  apply HasPrefix_first_line. by rewrite Hd.
Qed.

(** C9: the merge keeps a level-1 heading as the first line, with the new
    section right after it (one blank line between) and the rest of the
    document after the section, unchanged but for its leading line feeds;
    an empty or unreadable changelog becomes [# Changelog], a blank line and
    the section; and any number of merges into a document whose first line
    is [# Changelog] leave that first line as it is. *)
Theorem prependChangelog_keeps_heading :
  (forall h rest section,
     HasPrefix h (lit "# ") = true -> LF ∉ h ->
     prependChangelog (Some (h ++ LF :: rest)) section
     = h ++ [LF] ++ [LF] ++ section ++ [LF] ++ TrimLeft rest [LF] /\
     exists n, rest = replicate n LF ++ TrimLeft rest [LF]) /\
  (forall h section,
     HasPrefix h (lit "# ") = true -> LF ∉ h ->
     prependChangelog (Some h) section = h ++ [LF; LF] ++ section) /\
  (forall doc section,
     HasPrefix doc (lit "# ") = true ->
     first_line (prependChangelog (Some doc) section) = first_line doc) /\
  (forall section,
     prependChangelog None section = lit "# Changelog" ++ [LF; LF] ++ section /\
     prependChangelog (Some []) section
     = lit "# Changelog" ++ [LF; LF] ++ section) /\
  (forall doc sections,
     first_line doc = lit "# Changelog" ->
     first_line (release_all doc sections) = lit "# Changelog").
Proof.
  split; [|split; [|split; [|split]]].
  - intros h rest section Hp Hh. split.
    + by apply prependChangelog_heading_rest.
    + apply TrimLeft_suffix.
  - apply prependChangelog_heading_only.
  - apply prependChangelog_first_line.
  - intros section. by split.
  - apply release_all_first_line.
Qed.

Lemma prependChangelog_keeps_heading_witness :
  first_line
    (release_all
       (lit "# Changelog" ++ [LF; LF] ++ lit "## v0.1.0" ++ [LF; LF]
        ++ lit "- Old" ++ [LF])
       [lit "## v1.0.0" ++ [LF; LF] ++ lit "- New" ++ [LF];
        lit "## v1.1.0" ++ [LF; LF] ++ lit "- Newer" ++ [LF]])
  = lit "# Changelog".
Proof.
  apply (prependChangelog_keeps_heading : _ /\ _ /\ _ /\ _ /\ _).
  reflexivity.
Defined.

Example prependChangelog_example :
  prependChangelog
    (Some (lit "# Changelog" ++ [LF; LF] ++ lit "## v0.1.0" ++ [LF; LF]
           ++ lit "- Old" ++ [LF]))
    (lit "## v1.0.0" ++ [LF; LF] ++ lit "- New" ++ [LF])
  = lit "# Changelog" ++ [LF; LF] ++ lit "## v1.0.0" ++ [LF; LF]
    ++ lit "- New" ++ [LF; LF] ++ lit "## v0.1.0" ++ [LF; LF]
    ++ lit "- Old" ++ [LF].
Proof. vm_compute. reflexivity. Qed.

End merge_facts.

(** * More on the changeset parser *)

Section parser_more.

Import strings.

Implicit Types (s fm body content filePath w : gostring) (cs : changeset).

Lemma elem_of_TrimLeftFunc x s f : x ∈ TrimLeftFunc s f -> x ∈ s.
Proof.
  induction s as [|c s IH]; simpl; [done |].
  destruct (f c); [|done]. intros H. right. by apply IH.
Qed.

Lemma elem_of_rev x s : x ∈ rev s <-> x ∈ s.
Proof. rewrite !list_elem_of_In. symmetry. apply in_rev. Qed.

Lemma elem_of_TrimSpace x s : x ∈ TrimSpace s -> x ∈ s.
Proof.
  unfold TrimSpace, TrimRightFunc. rewrite elem_of_rev.
  intros H%elem_of_TrimLeftFunc. rewrite elem_of_rev in H.
  by apply elem_of_TrimLeftFunc in H.
Qed.

Lemma trimmed_TrimSpace s : trimmed (TrimSpace s).
Proof.
  unfold trimmed, TrimSpace. split.
  - by rewrite Trim_comm, TrimLeftFunc_idem.
  - apply TrimRightFunc_idem.
Qed.

Lemma parseBumpType_Ok s b : parseBumpType s = Ok b -> b = s /\ recognized s.
Proof.
  unfold parseBumpType.
  destruct (streq s patch) eqn:E1; [apply streq_true in E1 |];
    [intros [= <-]; split; [done | by left] |].
  destruct (streq s minor) eqn:E2; [apply streq_true in E2 |];
    [intros [= <-]; split; [done | right; by left] |].
  destruct (streq s major) eqn:E3; [apply streq_true in E3 |];
    [intros [= <-]; split; [done | right; by right] |].
  discriminate.
Qed.

Lemma parseBumpType_unrecognized s :
  ~ recognized s -> parseBumpType s = Err (InvalidBumpType s).
Proof.
  intros H. unfold parseBumpType.
  destruct (streq s patch) eqn:E1;
    [apply streq_true in E1; exfalso; apply H; by left |].
  destruct (streq s minor) eqn:E2;
    [apply streq_true in E2; exfalso; apply H; right; by left |].
  destruct (streq s major) eqn:E3;
    [apply streq_true in E3; exfalso; apply H; right; by right |].
  reflexivity.
Qed.

Lemma index_nat_Some_not_elem s c n :
  index_nat s [c] = Some n -> c ∉ take n s.
Proof.
  intros H Hin. apply index_nat_Some in H as [_ H].
  apply list_elem_of_lookup in Hin as [i Hi].
  pose proof (lookup_lt_Some _ _ _ Hi) as Hlt. rewrite length_take in Hlt.
  rewrite lookup_take_lt in Hi by lia.
  specialize (H i ltac:(lia)).
  rewrite (drop_S _ _ _ Hi) in H. simpl in H.
  by rewrite N.eqb_refl in H.
Qed.

(** What a successful [parseFrontmatter] tells. *)
Lemma parseFrontmatter_Ok fm body filePath cs :
  parseFrontmatter fm body filePath = Ok cs ->
  exists p0 p1,
    fm = p0 ++ lit ":" ++ p1 /\ (58%N ∉ p0) /\ recognized (TrimSpace p1) /\
    cs = mkChangeset filePath (TrimSpace p0) (TrimSpace p1) body.
Proof.
  unfold parseFrontmatter.
  destruct (index_nat fm (lit ":")) as [n|] eqn:Hidx.
  - rewrite (SplitN_2_found _ _ _ Hidx).
    destruct (parseBumpType _) as [b|e] eqn:Hb; [|discriminate].
    apply parseBumpType_Ok in Hb as [-> Hrec]. intros [= <-].
    exists (take n fm), (drop (n + length (lit ":")) fm).
    split; [|split; [by apply index_nat_Some_not_elem | done]].
    pose proof (index_nat_bound _ _ _ Hidx) as Hb.
    apply index_nat_Some in Hidx as [Hp _]. apply HasPrefix_drop in Hp.
    rewrite <- (take_drop n fm) at 1. f_equal.
    rewrite Hp at 1. f_equal. by rewrite drop_drop.
  - by rewrite (SplitN_2_none _ _ Hidx).
Qed.

(** X1: both parsers ignore white space around the document. *)
Theorem parse_ignores_outer_space w1 content w2 filePath :
  forallb IsSpace w1 = true ->
  forallb IsSpace w2 = true ->
  parseChangeset (w1 ++ content ++ w2) filePath
  = parseChangeset content filePath /\
  internal_changeset.Parse (w1 ++ content ++ w2) filePath
  = internal_changeset.Parse content filePath.
Proof.
  intros H1 H2. unfold parseChangeset, internal_changeset.Parse.
  by rewrite TrimSpace_skip_l, TrimSpace_skip_r.
Qed.

Lemma parse_ignores_outer_space_witness :
  parseChangeset
    ([LF; 32%N] ++ (lit "---" ++ [LF] ++ lit "repo: patch" ++ [LF] ++ lit "---"
                    ++ [LF; LF] ++ lit "Fix") ++ [LF; LF]) (lit "one.md")
  = parseChangeset
      (lit "---" ++ [LF] ++ lit "repo: patch" ++ [LF] ++ lit "---"
       ++ [LF; LF] ++ lit "Fix") (lit "one.md").
Proof.
  apply (parse_ignores_outer_space [LF; 32%N] _ [LF; LF] (lit "one.md"));
    reflexivity.
Defined.

(** The path of a changeset is the one [parseChangeset] was given. *)
Lemma parseChangeset_filepath content filePath cs :
  parseChangeset content filePath = Ok cs -> filepath cs = filePath.
Proof.
  unfold parseChangeset. cbv zeta.
  destruct (negb (HasPrefix (TrimSpace content) (lit "---"))); [done |].
  destruct (Index _ _ <? 0); [done |].
  by intros (p0 & p1 & _ & _ & _ & ->)%parseFrontmatter_Ok.
Qed.

(** X2: a changeset returned by either parser carries the given path, a
    recognized bump, and a name and a summary without white space around
    them; the name holds no colon. *)
Theorem parsed_changeset_wellformed content filePath cs :
  parseChangeset content filePath = Ok cs \/
  internal_changeset.Parse content filePath = Ok cs ->
  filepath cs = filePath /\
  recognized (bump cs) /\
  trimmed (repoName cs) /\
  trimmed (summary cs) /\
  58%N ∉ repoName cs.
Proof.
  assert (forall fm body,
            parseFrontmatter fm (TrimSpace body) filePath = Ok cs ->
            filepath cs = filePath /\ recognized (bump cs) /\
            trimmed (repoName cs) /\ trimmed (summary cs) /\
            58%N ∉ repoName cs) as Hfm.
  { intros fm body (p0 & p1 & _ & Hc & Hrec & ->)%parseFrontmatter_Ok. simpl.
    split; [done |]. split; [done |].
    split; [apply trimmed_TrimSpace |]. split; [apply trimmed_TrimSpace |].
    by intros H%elem_of_TrimSpace. }
  unfold parseChangeset, internal_changeset.Parse. cbv zeta.
  destruct (negb (HasPrefix (TrimSpace content) (lit "---")));
    [by intros [H | H] |].
  intros [H | H].
  - destruct (Index _ _ <? 0); [done |]. by apply Hfm in H.
  - destruct (Index _ _ <? 0); [done |]. by apply Hfm in H.
Qed.

Lemma parsed_changeset_wellformed_witness :
  filepath (mkChangeset (lit "t.md") (lit "repo") patch (lit "fix")) = lit "t.md" /\
  recognized (bump (mkChangeset (lit "t.md") (lit "repo") patch (lit "fix"))) /\
  trimmed (repoName (mkChangeset (lit "t.md") (lit "repo") patch (lit "fix"))) /\
  trimmed (summary (mkChangeset (lit "t.md") (lit "repo") patch (lit "fix"))) /\
  58%N ∉ repoName (mkChangeset (lit "t.md") (lit "repo") patch (lit "fix")).
Proof.
  apply (parsed_changeset_wellformed
           (lit "---" ++ [LF] ++ lit " repo : patch " ++ [LF] ++ lit "---"
            ++ [LF] ++ lit " fix ") (lit "t.md")).
  left. reflexivity.
Defined.

(** X3: a delimited document whose frontmatter has no colon fails with the
    invalid-format error, and one whose bump token is not exactly [patch],
    [minor] or [major] fails with the invalid-bump error that carries the
    trimmed token; no bump is substituted. *)
Theorem parseChangeset_frontmatter_errors fm body filePath :
  (forall i, ~ occurs_at (LF :: lit "---") fm i) ->
  (58%N ∉ fm ->
   parseChangeset (lit "---" ++ fm ++ LF :: lit "---" ++ body) filePath
   = Err InvalidFrontmatterFormat) /\
  (forall p0 p1,
     TrimSpace fm = p0 ++ lit ":" ++ p1 -> 58%N ∉ p0 ->
     ~ recognized (TrimSpace p1) ->
     parseChangeset (lit "---" ++ fm ++ LF :: lit "---" ++ body) filePath
     = Err (InvalidBumpType (TrimSpace p1))).
Proof.
  intros Hfm.
  apply Index_absent, (f_equal Z.succ) in Hfm. unfold Index in Hfm.
  destruct (index_nat fm (LF :: lit "---")) as [k|] eqn:Hidx; [lia | clear Hfm].
  pose proof (parseChangeset_delimited [] fm body filePath eq_refl Hidx) as Hp.
  rewrite app_nil_l in Hp. rewrite Hp. split.
  - intros Hc. unfold parseFrontmatter.
    rewrite SplitN_2_none; [done |]. apply index_nat_not_elem.
    by intros H%elem_of_TrimSpace.
  - intros p0 p1 Hsplit Hc Hrec.
    rewrite Hsplit, parseFrontmatter_split by done.
    by rewrite parseBumpType_unrecognized.
Qed.

Lemma parseChangeset_frontmatter_errors_witness :
  parseChangeset (lit "---" ++ ([LF] ++ lit "repo: Patch") ++ LF :: lit "---"
                  ++ ([LF; LF] ++ lit "message")) (lit "t.md")
  = Err (InvalidBumpType (TrimSpace (lit " Patch"))).
Proof.
  apply (parseChangeset_frontmatter_errors ([LF] ++ lit "repo: Patch")
           ([LF; LF] ++ lit "message") (lit "t.md")) with (p0 := lit "repo").
  - apply Index_absent. reflexivity.
  - reflexivity.
  - solve_closed.
  - intros [H | [H | H]]; discriminate H.
Defined.

(** X4: the two parsers agree on a document whose frontmatter line ends
    with a line feed before the closing delimiter, as long as no [---]
    starts inside that frontmatter. *)
Theorem parsers_agree fm body filePath :
  (forall i, ~ occurs_at (lit "---") (fm ++ [LF] ++ lit "--") i) ->
  internal_changeset.Parse (lit "---" ++ fm ++ LF :: lit "---" ++ body) filePath
  = parseChangeset (lit "---" ++ fm ++ LF :: lit "---" ++ body) filePath.
Proof.
  intros Hfm.
  assert (index_nat ((fm ++ [LF]) ++ lit "--") (lit "---") = None) as Hint.
  { apply Index_absent, (f_equal Z.succ) in Hfm. unfold Index in Hfm.
    rewrite <- app_assoc.
    destruct (index_nat _ _) as [k|]; [lia | done]. }
  assert (index_nat fm (LF :: lit "---") = None) as Hflat.
  { apply index_nat_absent. intros m.
    destruct (HasPrefix _ _) eqn:E; [|done]. exfalso.
    pose proof (index_nat_None _ _ (S m) Hint) as Hn.
    apply HasPrefix_prefix in E as [k Hk].
    assert (m < length fm)%nat as Hm.
    { destruct (decide (m < length fm)%nat); [done |].
      rewrite drop_ge in Hk by lia. done. }
    rewrite <- app_assoc, drop_app_le in Hn by lia.
    assert (drop (S m) fm = lit "---" ++ k) as Hd.
    { replace (S m) with (m + 1)%nat by lia. by rewrite <- drop_drop, Hk. }
    rewrite Hd, <- app_assoc in Hn. by rewrite HasPrefix_app in Hn. }
  pose proof (parseChangeset_delimited [] fm body filePath eq_refl Hflat) as Hp.
  rewrite app_nil_l in Hp. rewrite Hp.
  pose proof (Parse_delimited (fm ++ [LF]) body filePath Hint) as Hq.
  rewrite <- app_assoc in Hq. simpl in Hq. simpl. rewrite Hq.
  by rewrite TrimSpace_skip_r.
Qed.

Lemma parsers_agree_witness :
  internal_changeset.Parse
    (lit "---" ++ ([LF] ++ lit "my-repo: minor") ++ LF :: lit "---"
     ++ ([LF; LF] ++ lit "Added something cool")) (lit "test.md")
  = parseChangeset
      (lit "---" ++ ([LF] ++ lit "my-repo: minor") ++ LF :: lit "---"
       ++ ([LF; LF] ++ lit "Added something cool")) (lit "test.md").
Proof.
  apply parsers_agree. apply Index_absent. reflexivity.
Defined.

End parser_more.

(** * More on bumps, versions and the changelog *)

Section release_more.

Import strings.

Implicit Types (cs : changeset) (l pending : list changeset)
  (h rest section R : gostring).

(** X5: the highest bump of two lists put together is the higher of their
    highest bumps, so that further changesets never lower it. *)
Theorem highestBump_app l1 l2 :
  highestBump (l1 ++ l2)
  = (if bumpPriority (highestBump l1) <? bumpPriority (highestBump l2)
     then highestBump l2 else highestBump l1) /\
  bumpPriority (highestBump l1) <= bumpPriority (highestBump (l1 ++ l2)).
Proof.
  assert (highestBump (l1 ++ l2)
          = (if bumpPriority (highestBump l1) <? bumpPriority (highestBump l2)
             then highestBump l2 else highestBump l1)) as E.
  { rewrite !bumpPriority_highestBump.
    destruct (Z.ltb_spec (Z.max 1 (maxPriority l1)) (Z.max 1 (maxPriority l2)));
      rewrite !highestBump_of_priority, maxPriority_app; f_equal; lia. }
  split; [exact E |]. rewrite E.
  destruct (Z.ltb_spec (bumpPriority (highestBump l1))
              (bumpPriority (highestBump l2))); lia.
Qed.

(** X6: the next version does not depend on the order in which the pending
    changesets are listed. *)
Theorem computeNext_permutation cv pending pending' :
  pending ≡ₚ pending' -> computeNext cv pending = computeNext cv pending'.
Proof.
  intros Hp. destruct pending as [|cs l].
  - apply Permutation_nil in Hp. by subst.
  - assert (pending' <> []) as Hne.
    { intros ->. symmetry in Hp. by apply Permutation_nil in Hp. }
    rewrite !computeNext_nonempty by done.
    by rewrite !highestBump_of_priority, (maxPriority_perm _ _ Hp).
Qed.

Lemma computeNext_permutation_witness :
  computeNext (lit "v1.2.3")
    [mkChangeset [] [] patch []; mkChangeset [] [] minor []]
  = computeNext (lit "v1.2.3")
      [mkChangeset [] [] minor []; mkChangeset [] [] patch []].
Proof. apply computeNext_permutation. apply perm_swap. Defined.

Lemma members_spec_app b l1 l2 :
  members_spec b (l1 ++ l2) = members_spec b l1 ++ members_spec b l2.
Proof. unfold members_spec. apply filter_app. Qed.

Lemma members_spec_cons_ne b cs l :
  bump cs <> b -> members_spec b (cs :: l) = members_spec b l.
Proof. intros H. unfold members_spec. rewrite filter_cons. by case_decide. Qed.

Lemma buildChangelogSection_members date sha ver l l' :
  (forall b, recognized b -> members_spec b l = members_spec b l') ->
  buildChangelogSection date sha ver l = buildChangelogSection date sha ver l'.
Proof.
  intros H. rewrite !buildChangelogSection_render_spec. unfold render_spec.
  rewrite (H major), (H minor), (H patch); [done | | |]; unfold recognized; auto.
Qed.

(** X7: the changelog section depends only on the changesets of each of the
    three bumps and their order: a changeset with any other bump leaves no
    trace, two neighbours of different bumps can change places, and a list
    without recognized bumps gives the release header alone. *)
Theorem buildChangelogSection_groups date sha ver :
  (forall l1 cs l2,
     ~ recognized (bump cs) ->
     buildChangelogSection date sha ver (l1 ++ cs :: l2)
     = buildChangelogSection date sha ver (l1 ++ l2)) /\
  (forall l1 a b l2,
     bump a <> bump b ->
     buildChangelogSection date sha ver (l1 ++ a :: b :: l2)
     = buildChangelogSection date sha ver (l1 ++ b :: a :: l2)) /\
  (forall l,
     Forall (fun cs => ~ recognized (bump cs)) l ->
     buildChangelogSection date sha ver l
     = lit "## " ++ ver ++ lit " - " ++ date ++ [LF]).
Proof.
  split; [|split].
  - intros l1 cs l2 Hcs. apply buildChangelogSection_members. intros b Hb.
    rewrite !members_spec_app, members_spec_cons_ne; [done |].
    by intros <-.
  - intros l1 a b l2 Hab. apply buildChangelogSection_members. intros k _.
    rewrite !members_spec_app. f_equal. unfold members_spec.
    rewrite !filter_cons. repeat case_decide; congruence.
  - intros l Hl.
    rewrite (buildChangelogSection_members date sha ver l []).
    + rewrite buildChangelogSection_render_spec. reflexivity.
    + intros b Hb. unfold members_spec. induction Hl as [|cs l Hcs _ IH]; [done |].
      rewrite filter_cons. case_decide as E; [|done]. by rewrite E in Hcs.
Qed.

Lemma buildChangelogSection_groups_witness :
  buildChangelogSection (lit "2026-02-14") (fun _ => []) (lit "v1.0.1")
    ([mkChangeset [] [] patch (lit "Fix")]
     ++ mkChangeset [] [] (lit "urgent") (lit "Lost") :: [])
  = buildChangelogSection (lit "2026-02-14") (fun _ => []) (lit "v1.0.1")
      ([mkChangeset [] [] patch (lit "Fix")] ++ []).
Proof.
  apply (buildChangelogSection_groups (lit "2026-02-14") (fun _ => [])
           (lit "v1.0.1") : _ /\ _ /\ _).
  intros [H | [H | H]]; discriminate H.
Defined.

Lemma TrimLeft_LF_stop c s : c <> LF -> TrimLeft (c :: s) [LF] = c :: s.
Proof.
  intros Hc. unfold TrimLeft. apply TrimLeftFunc_stop.
  unfold in_cutset. cbn [existsb]. rewrite orb_false_r.
  apply N.eqb_neq. congruence.
Qed.

Lemma release_all_stack h sections R :
  HasPrefix h (lit "# ") = true -> LF ∉ h ->
  Forall (fun s => exists c s', s = c :: s' /\ c <> LF) sections ->
  TrimLeft R [LF] = R ->
  release_all (h ++ [LF; LF] ++ R) sections
  = h ++ [LF; LF] ++ concat (map (fun s => s ++ [LF]) (rev sections)) ++ R.
Proof.
  intros Hp Hh Hs. revert R. unfold release_all.
  induction Hs as [|s sections (c & s' & -> & Hc) _ IH]; intros R HR; [done |].
  cbn [fold_left].
  change (h ++ [LF; LF] ++ R) with (h ++ LF :: (LF :: R)).
  rewrite prependChangelog_heading_rest by done.
  assert (TrimLeft (LF :: R) [LF] = R) as -> by (by rewrite <- HR at 2).
  change (h ++ [LF] ++ [LF] ++ (c :: s') ++ [LF] ++ R)
    with (h ++ [LF; LF] ++ (c :: s') ++ [LF] ++ R).
  rewrite IH by (by apply (TrimLeft_LF_stop c (s' ++ [LF] ++ R))).
  cbn [rev]. rewrite map_app, concat_app. cbn [map concat].
  rewrite app_nil_r. by rewrite <- !app_assoc.
Qed.

(** X8: releases accumulate newest first.  Merging the sections of
    successive releases into a changelog that starts with a heading line
    gives the heading, a blank line, the sections from the last to the
    first, each followed by a line feed, and then the earlier content. *)
Theorem release_all_newest_first h rest sections :
  HasPrefix h (lit "# ") = true ->
  LF ∉ h ->
  sections <> [] ->
  Forall (fun s => exists c s', s = c :: s' /\ c <> LF) sections ->
  release_all (h ++ LF :: rest) sections
  = h ++ [LF; LF] ++ concat (map (fun s => s ++ [LF]) (rev sections))
    ++ TrimLeft rest [LF].
Proof.
  intros Hp Hh Hne Hs. destruct sections as [|s sections]; [done |].
  apply Forall_cons in Hs as [(c & s' & -> & Hc) Hs].
  unfold release_all. cbn [fold_left].
  rewrite prependChangelog_heading_rest by done.
  change (h ++ [LF] ++ [LF] ++ (c :: s') ++ [LF] ++ TrimLeft rest [LF])
    with (h ++ [LF; LF] ++ ((c :: s') ++ [LF] ++ TrimLeft rest [LF])).
  pose proof (release_all_stack h sections
                ((c :: s') ++ [LF] ++ TrimLeft rest [LF]) Hp Hh Hs) as E.
  unfold release_all in E.
  rewrite E by (by apply (TrimLeft_LF_stop c (s' ++ [LF] ++ TrimLeft rest [LF]))).
  cbn [rev]. rewrite map_app, concat_app. cbn [map concat].
  rewrite app_nil_r. by rewrite <- !app_assoc.
Qed.

Lemma release_all_newest_first_witness :
  release_all (lit "# Changelog" ++ LF :: ([LF] ++ lit "## v0.1.0" ++ [LF]))
    [lit "## v1.0.0" ++ [LF]; lit "## v1.1.0" ++ [LF]]
  = lit "# Changelog" ++ [LF; LF]
    ++ concat (map (fun s => s ++ [LF])
                 (rev [lit "## v1.0.0" ++ [LF]; lit "## v1.1.0" ++ [LF]]))
    ++ TrimLeft ([LF] ++ lit "## v0.1.0" ++ [LF]) [LF].
Proof.
  apply release_all_newest_first.
  - reflexivity.
  - solve_closed.
  - discriminate.
  - constructor; [eexists _, _; split; [reflexivity | discriminate] |].
    constructor; [eexists _, _; split; [reflexivity | discriminate] |].
    constructor.
Defined.

Lemma prependChangelog_headingless doc section :
  doc <> [] -> HasPrefix doc (lit "# ") = false ->
  prependChangelog (Some doc) section = section ++ [LF] ++ doc.
Proof.
  intros Hd Hp. unfold prependChangelog. cbv zeta.
  by rewrite (proj2 (streq_false doc []) Hd), Hp.
Qed.

Lemma HasPrefix_heading_app section doc :
  section <> [] -> HasPrefix section (lit "# ") = false ->
  HasPrefix (section ++ [LF] ++ doc) (lit "# ") = false.
Proof.
  destruct section as [|c [|d s']]; [done | |]; intros _; simpl.
  - intros _. by rewrite andb_false_r.
  - done.
Qed.

(** X19: a changelog without a level-1 heading never gets one: each
    release is put in front of it, followed by a line feed, so that the
    sections stand newest first before the earlier content. *)
Theorem release_all_headingless doc sections :
  doc <> [] ->
  HasPrefix doc (lit "# ") = false ->
  Forall (fun s => s <> [] /\ HasPrefix s (lit "# ") = false) sections ->
  release_all doc sections
  = concat (map (fun s => s ++ [LF]) (rev sections)) ++ doc /\
  HasPrefix (release_all doc sections) (lit "# ") = false.
Proof.
  intros Hd Hp Hs. revert doc Hd Hp. unfold release_all.
  induction Hs as [|s sections [Hne Hsp] _ IH]; intros doc Hd Hp; [done |].
  cbn [fold_left]. rewrite prependChangelog_headingless by done.
  destruct (IH (s ++ [LF] ++ doc)) as [E1 E2].
  - by destruct s.
  - by apply HasPrefix_heading_app.
  - split; [|done]. rewrite E1. cbn [rev].
    rewrite map_app, concat_app. cbn [map concat].
    rewrite app_nil_r. by rewrite <- !app_assoc.
Qed.

Lemma release_all_headingless_witness :
  release_all (lit "existing content" ++ [LF])
    [lit "## v1.0.0" ++ [LF]; lit "## v1.1.0" ++ [LF]]
  = concat (map (fun s => s ++ [LF])
              (rev [lit "## v1.0.0" ++ [LF]; lit "## v1.1.0" ++ [LF]]))
    ++ (lit "existing content" ++ [LF]) /\
  HasPrefix
    (release_all (lit "existing content" ++ [LF])
       [lit "## v1.0.0" ++ [LF]; lit "## v1.1.0" ++ [LF]]) (lit "# ") = false.
Proof.
  apply release_all_headingless.
  - discriminate.
  - reflexivity.
  - constructor; [split; [discriminate | reflexivity] |].
    constructor; [split; [discriminate | reflexivity] | constructor].
Defined.

End release_more.

(** * Listing and cleaning the changes directory *)

Section files_facts.

Import strings.

Variable ReadFile : gostring -> option gostring.
Variable Join : gostring -> gostring -> gostring.
Variable Remove : gostring -> bool.

Implicit Types (entry : DirEntry) (entries kept : list DirEntry)
  (result l : list changeset) (changesDir : gostring).

Lemma HasSuffix_spec s suffix :
  HasSuffix s suffix = true <-> exists k, s = k ++ suffix.
Proof.
  unfold HasSuffix, slice_from, len. split.
  - intros [Hle Heq%streq_true]%andb_true_iff. apply Z.leb_le in Hle.
    exists (take (length s - length suffix) s).
    rewrite <- Heq at 2.
    replace (Z.to_nat (Z.of_nat (length s) - Z.of_nat (length suffix)))
      with (length s - length suffix)%nat by lia.
    by rewrite take_drop.
  - intros [k ->]. apply andb_true_iff. split.
    + apply Z.leb_le. rewrite length_app. lia.
    + apply streq_true. rewrite length_app.
      replace (Z.to_nat (Z.of_nat (length k + length suffix)
                         - Z.of_nat (length suffix))) with (length k) by lia.
      by rewrite drop_app_length.
Qed.

Lemma isChangesetFile_cases entry :
  isChangesetFile entry =
  if IsDir entry then false
  else if negb (HasSuffix (Name entry) (lit ".md")) then false else true.
Proof.
  unfold isChangesetFile. destruct (IsDir entry); [done |].
  by destruct (HasSuffix _ _).
Qed.

(** The slice built so far is a prefix of the result. *)
Lemma listLoop_result changesDir entries result :
  listLoop ReadFile Join changesDir entries result =
  match listLoop ReadFile Join changesDir entries [] with
  | Done l => Done (result ++ l)
  | Failed e => Failed e
  end.
Proof.
  revert result; induction entries as [|entry entries IH]; intros result.
  - simpl. by rewrite app_nil_r.
  - cbn [listLoop]. destruct (IsDir entry); [apply IH |].
    destruct (negb (HasSuffix _ _)); [apply IH |]. cbv zeta.
    destruct (parseFile _ _) as [cs|e]; [|done].
    rewrite IH, (IH ([] ++ [cs])).
    destruct (listLoop _ _ _ _ []); [|done]. by rewrite <- app_assoc.
Qed.

Lemma listLoop_cons changesDir entry entries :
  listLoop ReadFile Join changesDir (entry :: entries) [] =
  if isChangesetFile entry then
    match parseFile ReadFile (Join changesDir (Name entry)) with
    | Failed e => Failed (ParseFailed (Name entry) e)
    | Done cs =>
        match listLoop ReadFile Join changesDir entries [] with
        | Done l => Done (cs :: l)
        | Failed e => Failed e
        end
    end
  else listLoop ReadFile Join changesDir entries [].
Proof.
  rewrite isChangesetFile_cases. cbn [listLoop].
  destruct (IsDir entry); [done |].
  destruct (negb (HasSuffix _ _)); [done |]. cbv zeta.
  destruct (parseFile _ _) as [cs|e]; [|done].
  by rewrite listLoop_result.
Qed.

Lemma parseFile_filepath path cs :
  parseFile ReadFile path = Done cs -> filepath cs = path.
Proof.
  unfold parseFile. destruct (ReadFile path) as [data|]; [|done].
  destruct (parseChangeset data path) as [cs'|e] eqn:E; [|done].
  intros [= <-]. by apply (parseChangeset_filepath data path cs').
Qed.

Lemma listLoop_Done changesDir entries l :
  listLoop ReadFile Join changesDir entries [] = Done l <->
  Forall2 (fun entry cs =>
             parseFile ReadFile (Join changesDir (Name entry)) = Done cs)
    (List.filter isChangesetFile entries) l.
Proof.
  revert l; induction entries as [|entry entries IH]; intros l.
  - simpl. split; [intros [= <-]; constructor | by intros ->%Forall2_nil_inv_l].
  - rewrite listLoop_cons. cbn [List.filter].
    destruct (isChangesetFile entry); [|apply IH].
    destruct (parseFile _ _) as [cs|e] eqn:E.
    + destruct (listLoop _ _ _ entries []) as [l'|e'] eqn:E'.
      * split.
        -- intros [= <-]. constructor; [done | by apply IH].
        -- intros (cs' & l'' & H1 & H2 & ->)%Forall2_cons_inv_l.
           apply IH in H2. congruence.
      * split; [done |].
        intros (cs' & l'' & H1 & H2 & ->)%Forall2_cons_inv_l.
        by apply IH in H2.
    + split; [done |].
      intros (cs' & l'' & H1 & H2 & ->)%Forall2_cons_inv_l. congruence.
Qed.

(** X9: [listChangesets] succeeds exactly when every regular entry whose
    name ends with [.md] parses; the result then holds one changeset for
    each of them, in directory order, under the joined path.  Directories
    and other files play no part, whatever they hold. *)
Theorem listChangesets_success entries changesDir l :
  listChangesets ReadFile Join (Some entries) changesDir = Done l <->
  Forall2 (fun entry cs =>
             parseFile ReadFile (Join changesDir (Name entry)) = Done cs /\
             filepath cs = Join changesDir (Name entry))
    (List.filter isChangesetFile entries) l.
Proof.
  unfold listChangesets. rewrite listLoop_Done. split.
  - intros H. eapply Forall2_impl; [exact H |].
    intros entry cs Hp. split; [done | by apply parseFile_filepath].
  - intros H. eapply Forall2_impl; [exact H |]. by intros entry cs [Hp _].
Qed.

(** X10: the listing fails fast.  When a changeset file does not parse and
    all those before it in the directory do, the listing fails with the
    name of that file and its error; no partial list is returned. *)
Theorem listChangesets_fail_fast before entry after changesDir e :
  Forall (fun entry' =>
            isChangesetFile entry' = true ->
            exists cs,
              parseFile ReadFile (Join changesDir (Name entry')) = Done cs)
    before ->
  isChangesetFile entry = true ->
  parseFile ReadFile (Join changesDir (Name entry)) = Failed e ->
  listChangesets ReadFile Join (Some (before ++ entry :: after)) changesDir
  = Failed (ParseFailed (Name entry) e).
Proof.
  intros Hb He Hp. unfold listChangesets.
  induction Hb as [|entry' before H _ IH].
  - simpl app. by rewrite listLoop_cons, He, Hp.
  - cbn [app]. rewrite listLoop_cons.
    destruct (isChangesetFile entry'); [|exact IH].
    destruct (H eq_refl) as [cs ->]. by rewrite IH.
Qed.

Lemma cleanupLoop_kept changesDir entries kept err :
  cleanupLoop Join Remove changesDir entries = (kept, err) ->
  (forall entry, entry ∈ entries -> isChangesetFile entry = false ->
                 entry ∈ kept) /\
  kept `sublist_of` entries /\
  (err = None ->
   kept = List.filter (fun entry => negb (isChangesetFile entry)) entries).
Proof.
  revert kept err; induction entries as [|entry entries IH]; intros kept err.
  - simpl. intros [= <- <-]. split; [done |]. split; [done | done].
  - cbn [cleanupLoop List.filter]. rewrite (isChangesetFile_cases entry).
    destruct (cleanupLoop _ _ _ entries) as [kept' err'] eqn:E.
    destruct (IH kept' err' eq_refl) as (H1 & H2 & H3).
    destruct (IsDir entry) eqn:Ed.
    { intros [= <- <-]. split; [|split].
      - intros e [-> | Hin]%elem_of_cons He; [left | right; by apply H1].
      - by apply sublist_skip.
      - intros ->. simpl. by rewrite H3. }
    destruct (negb (HasSuffix _ _)) eqn:Es.
    { intros [= <- <-]. split; [|split].
      - intros e [-> | Hin]%elem_of_cons He; [left | right; by apply H1].
      - by apply sublist_skip.
      - intros ->. simpl. by rewrite H3. }
    cbv zeta. destruct (Remove _).
    + intros [= <- <-]. split; [|split].
      * intros e [-> | Hin]%elem_of_cons He.
        -- rewrite isChangesetFile_cases, Ed, Es in He. done.
        -- by apply H1.
      * by apply sublist_cons.
      * intros ->. simpl. by apply H3.
    + intros [= <- <-]. split; [|split]; [by intros | done | done].
Qed.

Lemma listLoop_no_changeset_files changesDir entries :
  listLoop ReadFile Join changesDir
    (List.filter (fun entry => negb (isChangesetFile entry)) entries) []
  = Done [].
Proof.
  induction entries as [|entry entries IH]; [done |].
  cbn [List.filter]. destruct (isChangesetFile entry) eqn:E; [exact IH |].
  cbn [negb]. by rewrite listLoop_cons, E.
Qed.

(** X11: [cleanupChanges] only ever removes changeset files: directories
    and files without the [.md] ending (the [.gitkeep] placeholder) stay in
    every case.  When it reports no error, exactly those are left, and a
    listing of the directory gives no changeset. *)
Theorem cleanupChanges_leaves entries changesDir kept err :
  cleanupChanges Join Remove (Some entries) changesDir = (Some kept, err) ->
  (forall entry, entry ∈ entries -> isChangesetFile entry = false ->
                 entry ∈ kept) /\
  kept `sublist_of` entries /\
  (err = None ->
   kept = List.filter (fun entry => negb (isChangesetFile entry)) entries /\
   listChangesets ReadFile Join (Some kept) changesDir = Done []).
Proof.
  unfold cleanupChanges.
  destruct (cleanupLoop _ _ _ entries) as [kept' err'] eqn:E.
  intros [= <- <-].
  destruct (cleanupLoop_kept _ _ _ _ E) as (H1 & H2 & H3).
  split; [done |]. split; [done |]. intros ->.
  split; [by apply H3 |]. rewrite (H3 eq_refl).
  apply listLoop_no_changeset_files.
Qed.

(** X12: after a cleanup without error, the version calculation finds
    nothing pending and gives the configured version back. *)
Theorem calculateNextVersion_after_cleanup entries changesDir kept cfg :
  cleanupChanges Join Remove (Some entries) changesDir = (Some kept, None) ->
  calculateNextVersion (Ok cfg)
    (asResult (listChangesets ReadFile Join (Some kept) changesDir) ListError)
  = Ok (Version cfg, [], cfg).
Proof.
  unfold cleanupChanges.
  destruct (cleanupLoop _ _ _ entries) as [kept' err'] eqn:E.
  intros [= <- ->].
  destruct (cleanupLoop_kept _ _ _ _ E) as (_ & _ & H3).
  unfold listChangesets. rewrite (H3 eq_refl), listLoop_no_changeset_files.
  reflexivity.
Qed.

(** X13: a slug and its file name determine each other, and the file name
    of a slug is one the listing and the cleanup act on. *)
Theorem slug_filename slug filename :
  words.FilenameToSlug (words.SlugToFilename slug) = slug /\
  isChangesetFile (mkDirEntry (words.SlugToFilename slug) false) = true /\
  (HasSuffix filename (lit ".md") = true ->
   words.SlugToFilename (words.FilenameToSlug filename) = filename) /\
  (HasSuffix filename (lit ".md") = false ->
   words.FilenameToSlug filename = filename).
Proof.
  assert (HasSuffix (slug ++ lit ".md") (lit ".md") = true) as Hs
    by (apply HasSuffix_spec; by exists slug).
  unfold words.FilenameToSlug, words.SlugToFilename, TrimSuffix, isChangesetFile.
  cbn [Name IsDir negb andb]. rewrite Hs.
  split; [|split; [done | split]].
  - unfold slice_to, len. rewrite length_app.
    replace (Z.to_nat (Z.of_nat (length slug + length (lit ".md"))
                       - Z.of_nat (length (lit ".md")))) with (length slug)
      by lia.
    by rewrite take_app_length.
  - intros H. rewrite H. apply HasSuffix_spec in H as [k ->].
    unfold slice_to, len. rewrite length_app.
    replace (Z.to_nat (Z.of_nat (length k + length (lit ".md"))
                       - Z.of_nat (length (lit ".md")))) with (length k)
      by lia.
    by rewrite take_app_length.
  - by intros ->.
Qed.

End files_facts.

Lemma listChangesets_success_witness :
  listChangesets sample_ReadFile sample_Join (Some sample_entries) (lit "changes")
  = Done [mkChangeset (lit "changes/one.md") (lit "repo") minor
            (lit "Add feature")].
Proof.
  apply listChangesets_success.
  constructor; [split; reflexivity | constructor].
Defined.

Lemma listChangesets_fail_fast_witness :
  listChangesets sample_ReadFile sample_Join
    (Some (sample_entries ++ mkDirEntry (lit "bad.md") false
                          :: [mkDirEntry (lit "two.md") false]))
    (lit "changes")
  = Failed (ParseFailed (lit "bad.md") (Malformed MissingOpeningDelimiter)).
Proof.
  apply listChangesets_fail_fast.
  - constructor; [discriminate |].
    constructor; [discriminate |].
    constructor; [intros _; eexists; reflexivity | constructor].
  - reflexivity.
  - reflexivity.
Defined.

Lemma cleanupChanges_leaves_witness :
  (forall entry, entry ∈ sample_entries -> isChangesetFile entry = false ->
     entry ∈ [mkDirEntry (lit ".gitkeep") false;
              mkDirEntry (lit "archive.md") true]) /\
  [mkDirEntry (lit ".gitkeep") false; mkDirEntry (lit "archive.md") true]
    `sublist_of` sample_entries /\
  (@None cleanupError = None ->
   [mkDirEntry (lit ".gitkeep") false; mkDirEntry (lit "archive.md") true]
   = List.filter (fun entry => negb (isChangesetFile entry)) sample_entries /\
   listChangesets sample_ReadFile sample_Join
     (Some [mkDirEntry (lit ".gitkeep") false;
            mkDirEntry (lit "archive.md") true]) (lit "changes")
   = Done []).
Proof.
  apply (cleanupChanges_leaves sample_ReadFile sample_Join (fun _ => true)
           sample_entries (lit "changes")).
  reflexivity.
Defined.

Lemma calculateNextVersion_after_cleanup_witness :
  calculateNextVersion (Ok (mkConfig (lit "v1.1.0")))
    (asResult
       (listChangesets sample_ReadFile sample_Join
          (Some [mkDirEntry (lit ".gitkeep") false;
                 mkDirEntry (lit "archive.md") true]) (lit "changes"))
       ListError)
  = Ok (lit "v1.1.0", [], mkConfig (lit "v1.1.0")).
Proof.
  apply (calculateNextVersion_after_cleanup sample_ReadFile sample_Join
           (fun _ => true) sample_entries (lit "changes")).
  reflexivity.
Defined.

Lemma slug_filename_witness :
  words.SlugToFilename (words.FilenameToSlug (lit "brave-orange-fox.md"))
  = lit "brave-orange-fox.md".
Proof.
  apply (slug_filename [] (lit "brave-orange-fox.md") : _ /\ _ /\ _ /\ _).
  reflexivity.
Defined.

(** * The commit reference and the module name *)

Section split_facts.

Import strings.

Implicit Types (s a b out text : gostring) (c : rune).

Lemma until_rune_app c x y : until_rune c (x ++ c :: y) = until_rune c x.
Proof.
  induction x as [|e x IH]; simpl.
  - by rewrite N.eqb_refl.
  - destruct (e =? c)%N; [done | by rewrite IH].
Qed.

Lemma until_rune_not_elem c s : c ∉ until_rune c s.
Proof.
  induction s as [|e s IH]; simpl; [apply not_elem_of_nil |].
  destruct (N.eqb_spec e c) as [-> | Hne]; [apply not_elem_of_nil |].
  intros [H | H]%elem_of_cons; [by apply Hne | by apply IH].
Qed.

Lemma until_rune_id c s : c ∉ s -> until_rune c s = s.
Proof.
  induction s as [|e s IH]; simpl; [done |].
  intros [Hc Hs]%not_elem_of_cons.
  destruct (N.eqb_spec e c) as [-> | _]; [done | by rewrite IH].
Qed.

Lemma last_segment_app c a b :
  last_segment c (a ++ c :: b) = last_segment c b.
Proof.
  unfold last_segment. rewrite rev_app_distr. simpl.
  rewrite <- app_assoc. change ([c] ++ rev a) with (c :: rev a).
  by rewrite until_rune_app.
Qed.

Lemma last_segment_not_elem c s : c ∉ last_segment c s.
Proof.
  unfold last_segment. rewrite elem_of_rev. apply until_rune_not_elem.
Qed.

Lemma last_segment_id c s : c ∉ s -> last_segment c s = s.
Proof.
  intros H. unfold last_segment. rewrite until_rune_id.
  - apply rev_involutive.
  - by rewrite elem_of_rev.
Qed.

Lemma last_segment_snoc c s d :
  d <> c -> last_segment c (s ++ [d]) = last_segment c s ++ [d].
Proof.
  intros Hd. unfold last_segment. rewrite rev_app_distr. simpl.
  by apply N.eqb_neq in Hd as ->.
Qed.

Lemma index_nat_single_None s c : index_nat s [c] = None -> c ∉ s.
Proof.
  intros H [i Hi]%list_elem_of_lookup.
  pose proof (index_nat_None _ _ i H) as Hn.
  rewrite (drop_S _ _ _ Hi) in Hn. simpl in Hn. by rewrite N.eqb_refl in Hn.
Qed.

Lemma SplitN_SS s sep n :
  SplitN s sep (S (S n)) =
  if Index s sep <? 0 then [s]
  else slice_to s (Index s sep)
       :: SplitN (slice_from s (Index s sep + len sep)) sep (S n).
Proof. reflexivity. Qed.

Lemma SplitN_nonempty s sep n : SplitN s sep (S n) <> [].
Proof.
  destruct n; [done |]. cbn [SplitN]. by destruct (Index s sep <? 0).
Qed.

Lemma nth_last_cons {A} (x : A) (l : list A) d :
  l <> [] -> nth (length (x :: l) - 1) (x :: l) d = nth (length l - 1) l d.
Proof.
  destruct l as [|y l]; [done |]. intros _. simpl.
  by rewrite Nat.sub_0_r.
Qed.

(** The last part of a split at a character is the text after its last
    occurrence. *)
Lemma SplitN_last c n s :
  (length s < n)%nat ->
  nth (length (SplitN s [c] n) - 1) (SplitN s [c] n) [] = last_segment c s.
Proof.
  revert s; induction n as [|n IH]; intros s Hn; [lia |].
  destruct n as [|n].
  - destruct s; [done | simpl in Hn; lia].
  - rewrite SplitN_SS. unfold Index.
    destruct (index_nat s [c]) as [m|] eqn:Hidx.
    + destruct (Z.ltb_spec (Z.of_nat m) 0); [lia |].
      pose proof (index_nat_bound _ _ _ Hidx) as Hb. simpl in Hb.
      apply index_nat_Some in Hidx as [Hp _]. apply HasPrefix_drop in Hp.
      unfold slice_to, slice_from, len. change (length [c]) with 1%nat.
      replace (Z.to_nat (Z.of_nat m + Z.of_nat 1)) with (m + 1)%nat by lia.
      rewrite Nat2Z.id.
      rewrite nth_last_cons by apply SplitN_nonempty.
      rewrite IH by (rewrite length_drop; lia).
      rewrite <- (take_drop m s) at 2. rewrite Hp. simpl.
      by rewrite last_segment_app, drop_drop.
    + simpl. apply index_nat_single_None in Hidx.
      by rewrite last_segment_id.
Qed.

Lemma Split_last c s :
  nth (length (Split s [c]) - 1) (Split s [c]) [] = last_segment c s.
Proof. unfold Split. apply SplitN_last. lia. Qed.

Lemma TrimSpace_snoc_nonempty s d :
  IsSpace d = false -> TrimSpace (s ++ [d]) <> [].
Proof.
  intros Hd. unfold TrimSpace.
  destruct (TrimLeftFunc s IsSpace) as [|e r] eqn:E.
  - rewrite TrimLeftFunc_skip by (by apply TrimLeftFunc_nil_inv).
    rewrite TrimLeftFunc_stop by done.
    rewrite (TrimRightFunc_stop [] d []) by done. done.
  - rewrite TrimLeftFunc_app_ne by (by rewrite E). rewrite E.
    rewrite TrimRightFunc_stop by done. done.
Qed.

(** X14: the commit reference is the last line of the trimmed output of
    git, trimmed: it holds no line feed and no white space around it, and
    it is empty exactly when the output is blank. *)
Theorem getFileCommitSHA_reference out filePath :
  git.getFileCommitSHA (Some out) filePath
  = Done (TrimSpace (last_segment LF (TrimSpace out))) /\
  (LF ∉ TrimSpace (last_segment LF (TrimSpace out))) /\
  trimmed (TrimSpace (last_segment LF (TrimSpace out))) /\
  (TrimSpace (last_segment LF (TrimSpace out)) = [] <-> TrimSpace out = []).
Proof.
  split; [|split; [|split; [apply trimmed_TrimSpace |]]].
  - unfold git.getFileCommitSHA. cbv zeta.
    destruct (streq (TrimSpace out) []) eqn:E.
    + apply streq_true in E. by rewrite E.
    + by rewrite Split_last.
  - intros H%elem_of_TrimSpace. by apply last_segment_not_elem in H.
  - split; [|by intros ->]. intros H.
    destruct (TrimRightFunc_last (TrimSpace out) IsSpace)
      as [E | (s' & d & E & Hd)]; [apply trimmed_TrimSpace | done |].
    exfalso. rewrite E, last_segment_snoc in H by (by intros ->).
    by apply TrimSpace_snoc_nonempty in H.
Qed.

Lemma moduleLoop_skip before lines :
  Forall (fun t => HasPrefix (TrimSpace t) (lit "module ") = false) before ->
  moduleLoop (before ++ lines) = moduleLoop lines.
Proof.
  induction 1 as [|t before Ht _ IH]; [done |].
  cbn [app moduleLoop]. cbv zeta. by rewrite Ht.
Qed.

(** X15: [moduleName] answers from the first line that, trimmed, starts
    with [module ]: it returns the text after the last slash of the trimmed
    rest of that line, which holds no slash, and does so even when the scan
    ended on an error later.  Without such a line it fails. *)
Theorem moduleName_directive before scanErr :
  Forall (fun t => HasPrefix (TrimSpace t) (lit "module ") = false) before ->
  (forall text after,
     HasPrefix (TrimSpace text) (lit "module ") = true ->
     moduleName (Some (before ++ text :: after, scanErr))
     = Done (last_segment 47%N (TrimSpace (drop 7 (TrimSpace text)))) /\
     47%N ∉ last_segment 47%N (TrimSpace (drop 7 (TrimSpace text)))) /\
  moduleName (Some (before, scanErr))
  = Failed (if scanErr then ScanFailed else NoModuleDirective).
Proof.
  intros Hb. split.
  - intros text after Ht. split; [|apply last_segment_not_elem].
    unfold moduleName. rewrite moduleLoop_skip by done.
    cbn [moduleLoop]. cbv zeta. rewrite Ht.
    unfold TrimPrefix. rewrite Ht.
    change (lit "/") with [47%N]. by rewrite Split_last.
  - unfold moduleName.
    rewrite <- (app_nil_r before), moduleLoop_skip by done. simpl.
    by destruct scanErr.
Qed.

End split_facts.

Lemma getFileCommitSHA_reference_witness :
  strings.TrimSpace
    (last_segment LF (strings.TrimSpace ([LF] ++ lit "  " ++ [LF]))) = [].
Proof.
  apply (getFileCommitSHA_reference ([LF] ++ lit "  " ++ [LF]) (lit "one.md")).
  reflexivity.
Defined.

Lemma moduleName_directive_witness :
  moduleName (Some ([lit "// comment"; []]
                    ++ lit "module github.com/nesymno/changesets"
                    :: [lit "go 1.25.0"], false))
  = Done (last_segment 47%N
            (strings.TrimSpace
               (drop 7 (strings.TrimSpace
                          (lit "module github.com/nesymno/changesets"))))) /\
  47%N ∉ last_segment 47%N
           (strings.TrimSpace
              (drop 7 (strings.TrimSpace
                         (lit "module github.com/nesymno/changesets")))).
Proof.
  apply (moduleName_directive [lit "// comment"; []] false).
  - constructor; [reflexivity |]. constructor; [reflexivity | constructor].
  - reflexivity.
Defined.

Example moduleName_example :
  moduleName (Some ([lit "module github.com/nesymno/changesets"; [];
                     lit "go 1.25.0"], false))
  = Done (lit "changesets").
Proof. vm_compute. reflexivity. Qed.

Example getFileCommitSHA_example :
  git.getFileCommitSHA
    (Some (lit "abc1234" ++ [LF] ++ lit "def5678" ++ [LF])) (lit "one.md")
  = Done (lit "def5678").
Proof. vm_compute. reflexivity. Qed.

(** * The commands *)

Section commands_facts.

Import strings.

Variable Join : gostring -> gostring -> gostring.
Variable changesPath : gostring.

Implicit Types (input : list gostring) (repoName summ content : gostring).

(** A rendered changeset parses back (the round trip, for use below). *)
Lemma render_parse_back name b summ filePath :
  recognized b ->
  trimmed name ->
  58%N ∉ name ->
  (forall i, ~ occurs_at (LF :: lit "---") (LF :: name) i) ->
  trimmed summ ->
  parseChangeset (changesetContent name b summ) filePath
  = Ok (mkChangeset filePath name b summ).
Proof.
  intros Hb Hname Hcolon Hline Hsumm.
  apply Index_absent, (f_equal Z.succ) in Hline. unfold Index in Hline.
  destruct (index_nat (LF :: name) (LF :: lit "---")) as [k|] eqn:Hidx;
    [lia | clear Hline].
  unfold changesetContent.
  replace (lit "---" ++ [LF] ++ name ++ lit ": " ++ b ++ [LF] ++ lit "---"
           ++ [LF; LF] ++ summ ++ [LF])
    with ([] ++ lit "---" ++ ((LF :: name) ++ lit ": " ++ b)
          ++ LF :: lit "---" ++ ([LF; LF] ++ summ ++ [LF]))
    by (simpl; by rewrite <- !app_assoc).
  rewrite parseChangeset_delimited; [|done|].
  - change ((LF :: name) ++ lit ": " ++ b)
      with ([LF] ++ name ++ lit ":" ++ lit " " ++ b).
    rewrite (TrimSpace_skip_l [LF]) by done.
    rewrite (TrimSpace_skip_l [LF; LF]) by done.
    rewrite (TrimSpace_skip_r summ [LF]) by done.
    rewrite (TrimSpace_trimmed summ) by done.
    assert (TrimSpace (name ++ lit ":" ++ lit " " ++ b)
            = name ++ lit ":" ++ lit " " ++ b) as ->.
    { apply TrimSpace_trimmed. destruct name as [|c name'].
      - destruct Hb as [-> | [-> | ->]]; by split.
      - apply trimmed_app; [done | done | done |].
        destruct Hb as [-> | [-> | ->]]; by split. }
    rewrite parseFrontmatter_split by done.
    rewrite (TrimSpace_trimmed name) by done.
    assert (TrimSpace (lit " " ++ b) = b) as ->
      by (destruct Hb as [-> | [-> | ->]]; reflexivity).
    by rewrite parseBumpType_recognized.
  - apply index_nat_app_none; [done | |].
    + destruct Hb as [-> | [-> | ->]]; solve_closed.
    + intros e v' [= <- _]. solve_closed.
Qed.

Lemma selectBump_recognized choice b :
  selectBump choice = Some b -> recognized b.
Proof.
  unfold selectBump, recognized.
  destruct (_ || _); [intros [= <-]; auto |].
  destruct (_ || _); [intros [= <-]; auto |].
  destruct (_ || _); [intros [= <-]; auto | done].
Qed.

(** X16: the file [cmdAdd] creates is named after the slug, and it parses
    back to the module name, the bump that was chosen and the trimmed,
    non-empty summary that was typed, for a module name without a colon,
    white space around it or a line that begins with [---]; nothing is
    created unless the confirmation is [y] or [Y]. *)
Theorem cmdAdd_file_parses repoName input slug writeOk filePath content :
  trimmed repoName ->
  58%N ∉ repoName ->
  (forall i, ~ occurs_at (LF :: lit "---") (LF :: repoName) i) ->
  cmdAdd Join changesPath (Done repoName) input slug writeOk
  = AddCreated filePath content ->
  exists text1 text2 text3 rest b name,
    input = text1 :: text2 :: text3 :: rest /\
    selectBump (TrimSpace text1) = Some b /\
    EqualFold_y (TrimSpace text3) = true /\
    slug = Some name /\
    filePath = Join changesPath (name ++ lit ".md") /\
    TrimSpace text2 <> [] /\
    content = changesetContent repoName b (TrimSpace text2) /\
    parseChangeset content filePath
    = Ok (mkChangeset filePath repoName b (TrimSpace text2)).
Proof.
  intros Hname Hcolon Hline. unfold cmdAdd.
  destruct input as [|text1 [|text2 [|text3 rest]]]; try done;
    cbv zeta; destruct (selectBump (TrimSpace text1)) as [b|] eqn:Hb; try done.
  - by destruct (streq (TrimSpace text2) []).
  - destruct (streq (TrimSpace text2) []) eqn:Hs; [done |].
    destruct (EqualFold_y (TrimSpace text3)) eqn:Hy; [|done]. cbn [negb].
    destruct slug as [name|]; [|done].
    destruct writeOk; [|done]. intros [= <- <-].
    exists text1, text2, text3, rest, b, name.
    repeat (split; [done |]). split; [by apply streq_false in Hs |].
    split; [done |].
    apply render_parse_back; try done.
    + by apply selectBump_recognized in Hb.
    + apply trimmed_TrimSpace.
Qed.

End commands_facts.

Lemma cmdAdd_file_parses_witness :
  exists text1 text2 text3 rest b name,
    [lit "2"; lit " Add feature "; lit "Y"] = text1 :: text2 :: text3 :: rest /\
    selectBump (strings.TrimSpace text1) = Some b /\
    EqualFold_y (strings.TrimSpace text3) = true /\
    Some (lit "brave-calm-fox") = Some name /\
    lit "changes/brave-calm-fox.md"
    = sample_Join (lit "changes") (name ++ lit ".md") /\
    strings.TrimSpace text2 <> [] /\
    changesetContent (lit "changesets") minor (lit "Add feature")
    = changesetContent (lit "changesets") b (strings.TrimSpace text2) /\
    parseChangeset
      (changesetContent (lit "changesets") minor (lit "Add feature"))
      (lit "changes/brave-calm-fox.md")
    = Ok (mkChangeset (lit "changes/brave-calm-fox.md") (lit "changesets") b
            (strings.TrimSpace text2)).
Proof.
  apply (cmdAdd_file_parses sample_Join (lit "changes") (lit "changesets")
           [lit "2"; lit " Add feature "; lit "Y"]
           (Some (lit "brave-calm-fox")) true).
  - split; reflexivity.
  - solve_closed.
  - apply Index_absent. reflexivity.
  - reflexivity.
Defined.

(** * The release *)

Section release_facts.

Import strings.

Variable Join : gostring -> gostring -> gostring.
Variable changesPath : gostring.
Variable ReadFile : gostring -> option gostring.
Variable Remove : gostring -> bool.
Variable date : gostring.
Variable gitOutput : gostring -> option gostring.
Variable changelogWritable : bool.
Variable configWritable : bool.

Implicit Types (p : project) (v next : gostring) (changes : list changeset).

Local Abbreviation release :=
  (cmdRelease Join changesPath ReadFile Remove date gitOutput
     changelogWritable configWritable).
Local Abbreviation calculate := (calculateNextVersionOf Join changesPath ReadFile).
Local Abbreviation next_version := (cmdNext Join changesPath ReadFile).
Local Abbreviation section_of next changes :=
  (buildChangelogSection date (git.commitReference gitOutput) next changes).

(** A release either stops early and leaves the files alone, or goes
    through its writes in order. *)
Lemma cmdRelease_cases p p' r :
  release p = (p', r) ->
  (p' = p /\ exists e, r = Failed e) \/
  exists next changes cfg kept,
    hasChangesets p = true /\
    calculate p = Ok (next, changes, cfg) /\
    changes <> [] /\
    changelogWritable = true /\
    hasChangesets p' = true /\
    changelogFile p'
    = Some (prependChangelog (changelogFile p) (section_of next changes)) /\
    ((configWritable = false /\ r = Failed ConfigWriteFailed /\
      configFile p' = configFile p /\ changesEntries p' = changesEntries p) \/
     (configWritable = true /\
      configFile p' = Ok (mkConfig next) /\
      changesEntries p' = kept /\
      exists err,
        cleanupChanges Join Remove (changesEntries p) changesPath = (kept, err) /\
        r = match err with
            | Some e => Failed (CleanupFailed e)
            | None => Done next
            end)).
Proof.
  unfold cmdRelease, ensureChangesetsExist.
  destruct (hasChangesets p) eqn:Hh; cbn [negb];
    [|intros [= <- <-]; left; eauto].
  destruct (calculate p) as [[[next changes] cfg]|e] eqn:Hc;
    [|intros [= <- <-]; left; eauto].
  destruct (len_list changes =? 0) eqn:Hl; [intros [= <- <-]; left; eauto |].
  assert (changes <> []) as Hne by (intros ->; done).
  destruct changelogWritable; cbn [negb]; [|intros [= <- <-]; left; eauto].
  destruct configWritable; cbn [negb]; intros H; right.
  - cbn [changesEntries hasChangesets configFile changelogFile] in H.
    destruct (cleanupChanges _ _ _ _) as [kept err] eqn:Hk.
    exists next, changes, cfg, kept.
    repeat (split; [done |]).
    destruct err as [e|]; injection H as <- <-; cbn.
    + repeat (split; [done |]). right. repeat (split; [done |]).
      by exists (Some e).
    + repeat (split; [done |]). right. repeat (split; [done |]).
      by exists None.
  - injection H as <- <-. exists next, changes, cfg, (changesEntries p). cbn.
    repeat (split; [done |]). left. by repeat split.
Qed.

(** X17: a release writes nothing before the next version is computed and
    something is pending.  Whenever it leaves any file changed, the project
    was initialized, the version calculation succeeded on a non-empty list
    of changesets, and the changelog holds the merge of the new section;
    the configuration is replaced only after that, and changeset files are
    removed only after the configuration was saved. *)
Theorem cmdRelease_order p p' r :
  release p = (p', r) ->
  p' <> p ->
  exists next changes cfg,
    hasChangesets p = true /\
    calculate p = Ok (next, changes, cfg) /\
    changes <> [] /\
    changelogFile p'
    = Some (prependChangelog (changelogFile p) (section_of next changes)) /\
    (configFile p' = configFile p \/ configFile p' = Ok (mkConfig next)) /\
    (changesEntries p' <> changesEntries p ->
     configFile p' = Ok (mkConfig next)) /\
    (configFile p' = configFile p /\ changesEntries p' = changesEntries p \/
     configWritable = true).
Proof.
  intros H Hne.
  destruct (cmdRelease_cases _ _ _ H)
    as [[-> _] | (next & changes & cfg & kept & H1 & H2 & H3 & _ & _ & H5 & H6)];
    [done |].
  exists next, changes, cfg. repeat (split; [done |]).
  destruct H6 as [(_ & _ & Hc & He) | (Hw & Hc & _)].
  - split; [by left |]. split; [done | by left].
  - split; [by right |]. split; [done | by right].
Qed.

(** X18: a release that reports success printed the version [cmdNext]
    announced; afterwards the configuration holds that version, no
    changeset is pending, [cmdNext] answers with the same version again,
    and a second release fails with nothing to release and changes
    nothing. *)
Theorem cmdRelease_success p p' v :
  release p = (p', Done v) ->
  next_version p = Ok v /\
  configFile p' = Ok (mkConfig v) /\
  listChangesets ReadFile Join (changesEntries p') changesPath = Done [] /\
  next_version p' = Ok v /\
  release p' = (p', Failed NothingToRelease).
Proof.
  intros H.
  destruct (cmdRelease_cases _ _ _ H)
    as [[_ [e [=]]] |
        (next & changes & cfg & kept & H1 & H2 & H3 & _ & H4 & H5 & H6)].
  destruct H6 as [(_ & [=] & _) | (Hw & Hc & He & err & Hk & Hr)].
  destruct err as [e|]; [done |]. injection Hr as ->.
  assert (listChangesets ReadFile Join (changesEntries p') changesPath
          = Done []) as Hlist.
  { rewrite He. unfold cleanupChanges in Hk.
    destruct (changesEntries p) as [entries|]; [|done].
    destruct (cleanupLoop _ _ _ _) as [kept' err'] eqn:Hloop.
    injection Hk as <- ->.
    destruct (cleanupLoop_kept _ _ _ _ _ _ Hloop) as (_ & _ & Hf).
    rewrite (Hf eq_refl). apply listLoop_no_changeset_files. }
  assert (calculate p' = Ok (next, [], mkConfig next)) as Hcalc.
  { unfold calculateNextVersionOf. by rewrite Hc, Hlist. }
  split; [unfold cmdNext; by rewrite H2 |]. split; [done |].
  split; [done |]. split; [unfold cmdNext; by rewrite Hcalc |].
  unfold cmdRelease, ensureChangesetsExist. by rewrite H4, Hcalc.
Qed.

End release_facts.

Example cmdRelease_example :
  cmdRelease sample_Join (lit "changes") sample_ReadFile (fun _ => true)
    (lit "2026-02-14") (fun _ => None) true true sample_project
  = (sample_released, Done (lit "v1.1.0")).
Proof. vm_compute. reflexivity. Qed.

Lemma cmdRelease_order_witness :
  exists next changes cfg,
    hasChangesets sample_project = true /\
    calculateNextVersionOf sample_Join (lit "changes") sample_ReadFile
      sample_project = Ok (next, changes, cfg) /\
    changes <> [] /\
    changelogFile sample_released
    = Some (prependChangelog (changelogFile sample_project)
              (buildChangelogSection (lit "2026-02-14")
                 (git.commitReference (fun _ => None)) next changes)) /\
    (configFile sample_released = configFile sample_project \/
     configFile sample_released = Ok (mkConfig next)) /\
    (changesEntries sample_released <> changesEntries sample_project ->
     configFile sample_released = Ok (mkConfig next)) /\
    (configFile sample_released = configFile sample_project /\
     changesEntries sample_released = changesEntries sample_project \/
     true = true).
Proof.
  apply (cmdRelease_order sample_Join (lit "changes") sample_ReadFile
           (fun _ => true) (lit "2026-02-14") (fun _ => None) true true
           sample_project sample_released (Done (lit "v1.1.0"))).
  - vm_compute. reflexivity.
  - discriminate.
Defined.

Lemma cmdRelease_success_witness :
  cmdNext sample_Join (lit "changes") sample_ReadFile sample_project
  = Ok (lit "v1.1.0") /\
  configFile sample_released = Ok (mkConfig (lit "v1.1.0")) /\
  listChangesets sample_ReadFile sample_Join (changesEntries sample_released)
    (lit "changes") = Done [] /\
  cmdNext sample_Join (lit "changes") sample_ReadFile sample_released
  = Ok (lit "v1.1.0") /\
  cmdRelease sample_Join (lit "changes") sample_ReadFile (fun _ => true)
    (lit "2026-02-14") (fun _ => None) true true sample_released
  = (sample_released, Failed NothingToRelease).
Proof.
  apply (cmdRelease_success sample_Join (lit "changes") sample_ReadFile
           (fun _ => true) (lit "2026-02-14") (fun _ => None) true true
           sample_project sample_released (lit "v1.1.0")).
  vm_compute. reflexivity.
Defined.

(** * Slugs *)

Section slug_facts.

Variable Join : gostring -> gostring -> gostring.
Variable notExist : gostring -> bool.
Variable draws : nat -> option nat.

Implicit Types (changesDir slug : gostring) (attempts n : nat).

Lemma generateLoop_S changesDir attempts n :
  slug.generateLoop Join notExist draws changesDir (S attempts) n =
  match draws n, draws (n + 1), draws (n + 2) with
  | Some i1, Some i2, Some i3 =>
      if notExist
           (Join changesDir
              ((nth i1 slug.adjectives [] ++ lit "-"
                ++ nth i2 slug.adjectives [] ++ lit "-"
                ++ nth i3 slug.nouns []) ++ lit ".md"))
      then Done (nth i1 slug.adjectives [] ++ lit "-"
                 ++ nth i2 slug.adjectives [] ++ lit "-"
                 ++ nth i3 slug.nouns [])
      else slug.generateLoop Join notExist draws changesDir attempts (n + 3)
  | _, _, _ => Failed slug.RandomFailed
  end.
Proof.
  cbn [slug.generateLoop]. unfold slug.randomElement.
  destruct (draws n); [|done]. destruct (draws (n + 1)); [|done].
  by destruct (draws (n + 2)).
Qed.

Lemma generateLoop_Done changesDir attempts n slug :
  slug.generateLoop Join notExist draws changesDir attempts n = Done slug ->
  notExist (Join changesDir (words.SlugToFilename slug)) = true /\
  (slug.draws_in_range draws -> (n mod 3 = 0)%nat ->
   exists adj1 adj2 noun,
     adj1 ∈ slug.adjectives /\ adj2 ∈ slug.adjectives /\ noun ∈ slug.nouns /\
     slug = adj1 ++ lit "-" ++ adj2 ++ lit "-" ++ noun).
Proof.
  revert n; induction attempts as [|attempts IH]; intros n; [done |].
  rewrite generateLoop_S.
  destruct (draws n) as [i1|] eqn:E1; [|done].
  destruct (draws (n + 1)) as [i2|] eqn:E2; [|done].
  destruct (draws (n + 2)) as [i3|] eqn:E3; [|done].
  set (made := nth i1 slug.adjectives [] ++ lit "-"
               ++ nth i2 slug.adjectives [] ++ lit "-"
               ++ nth i3 slug.nouns []).
  destruct (notExist (Join changesDir (made ++ lit ".md"))) eqn:En.
  - intros [= <-]. split; [exact En |]. intros Hr Hn.
    apply Hr in E1, E2, E3.
    replace (n mod 3)%nat with 0%nat in E1 by done.
    replace ((n + 1) mod 3)%nat with 1%nat in E2
      by (rewrite Nat.Div0.add_mod, Hn; done).
    replace ((n + 2) mod 3)%nat with 2%nat in E3
      by (rewrite Nat.Div0.add_mod, Hn; done).
    cbn [Nat.eqb] in E1, E2, E3.
    eexists _, _, _. split; [|split; [|split; [|reflexivity]]];
      apply list_elem_of_In, nth_In; done.
  - intros H. destruct (IH _ H) as [H1 H2]. split; [done |].
    intros Hr Hn. apply H2; [done |].
    rewrite Nat.Div0.add_mod, Hn. done.
Qed.

Lemma generateLoop_exhausted changesDir attempts n :
  (forall path, notExist path = false) ->
  (forall k, draws k <> None) ->
  slug.generateLoop Join notExist draws changesDir attempts n
  = Failed slug.Exhausted.
Proof.
  intros He Hd. revert n; induction attempts as [|attempts IH]; intros n;
    [done |].
  rewrite generateLoop_S.
  pose proof (Hd n). pose proof (Hd (n + 1)%nat). pose proof (Hd (n + 2)%nat).
  destruct (draws n); [|done]. destruct (draws (n + 1)); [|done].
  destruct (draws (n + 2)); [|done]. by rewrite He, IH.
Qed.

(** X20: a slug that [Generate] returns names a file that does not exist
    yet, and is made of two adjectives and a noun of the word lists joined
    by hyphens; when every name is taken it gives up after its hundred
    attempts. *)
Theorem Generate_slug changesDir :
  (forall slug,
     slug.Generate Join notExist draws changesDir = Done slug ->
     notExist (Join changesDir (words.SlugToFilename slug)) = true /\
     (slug.draws_in_range draws ->
      exists adj1 adj2 noun,
        adj1 ∈ slug.adjectives /\ adj2 ∈ slug.adjectives /\
        noun ∈ slug.nouns /\
        slug = adj1 ++ lit "-" ++ adj2 ++ lit "-" ++ noun)) /\
  ((forall path, notExist path = false) ->
   (forall k, draws k <> None) ->
   slug.Generate Join notExist draws changesDir = Failed slug.Exhausted).
Proof.
  split.
  - intros slug H. destruct (generateLoop_Done _ _ _ _ H) as [H1 H2].
    split; [done |]. intros Hr. by apply H2.
  - apply generateLoop_exhausted.
Qed.

End slug_facts.

Lemma Generate_slug_witness :
  notExist_sample (sample_Join (lit "changes")
                     (words.SlugToFilename (lit "angry-brave-cat"))) = true /\
  exists adj1 adj2 noun,
    adj1 ∈ slug.adjectives /\ adj2 ∈ slug.adjectives /\
    noun ∈ slug.nouns /\
    lit "angry-brave-cat" = adj1 ++ lit "-" ++ adj2 ++ lit "-" ++ noun.
Proof.
  destruct (proj1 (Generate_slug sample_Join notExist_sample
                     (fun k : nat => Some (k mod 3)%nat) (lit "changes"))
              (lit "angry-brave-cat") ltac:(vm_compute; reflexivity))
    as [H1 H2].
  split; [exact H1 |]. apply H2. intros k i [= <-].
  assert (k mod 3 < 3)%nat by (apply Nat.mod_upper_bound; lia).
  destruct (k mod 3 =? 2)%nat;
    [change (length slug.nouns) with 100%nat
    | change (length slug.adjectives) with 105%nat]; lia.
Defined.
